(** * URL-tree construction of the router (packages/router/src/create_url_tree.ts)

    A shallow embedding of [createUrlTreeFromSegmentGroup], [createUrlTree] and
    the functions they call, followed by the properties of the specification
    that are settled against it. *)

From Stdlib Require Import List String Ascii ZArith Bool Lia PeanoNat.
Import ListNotations.

Local Open Scope string_scope.
Local Open Scope list_scope.

Set Warnings "-register-all".

(** ** Outcomes of a call

    A call returns a value or throws.  [OutOfFuel] only exists for the
    fuel-indexed versions of the two recursive rewrites; the functions that
    the rest of the development uses are shown never to produce it. *)

Inductive RuntimeErrorCode :=
| ROOT_SEGMENT_MATRIX_PARAMS
| MISPLACED_OUTLETS_COMMAND
| INVALID_DOUBLE_DOTS.

(** What the code throws: a [RuntimeError] of the router, or the [TypeError]
    of the language when a property of [undefined] is read. *)
Inductive Exception :=
| RuntimeError (code : RuntimeErrorCode)
| TypeError.

Inductive result (A : Type) :=
| Ok (a : A)
| Throw (e : Exception)
| OutOfFuel.

Arguments Ok {A} a.
Arguments Throw {A} e.
Arguments OutOfFuel {A}.

Definition bind {A B} (r : result A) (k : A -> result B) : result B :=
  match r with
  | Ok a => k a
  | Throw e => Throw e
  | OutOfFuel => OutOfFuel
  end.

Notation "x <- r ;; k" := (bind r (fun x => k))
  (at level 61, r at next level, right associativity).

(** ** JavaScript objects used as maps

    An object is kept as the list of its entries in insertion order; a key
    occurs once in an object.  [obj_get] finds an entry of the object itself,
    [obj_read] is the property read [o[k]], which also finds what the object
    inherits, and [obj_set o k v] is the assignment [o[k] = v].  [forEach] of
    utils/collection.ts, which is not in src/, is taken to visit the own
    entries of an object in this order, and [last] to return the last element
    of an array. *)

Definition Obj (V : Type) := list (string * V).

Fixpoint obj_get {V} (o : Obj V) (k : string) : option V :=
  match o with
  | [] => None
  | (k', v) :: o' => if String.eqb k' k then Some v else obj_get o' k
  end.

Fixpoint obj_set {V} (o : Obj V) (k : string) (v : V) : Obj V :=
  match o with
  | [] => [(k, v)]
  | (k', v') :: o' =>
      if String.eqb k' k then (k', v) :: o' else (k', v') :: obj_set o' k v
  end.

(** [forEach(o, (v, k) => out[k] = f(v))] into a fresh object [out]. *)
Definition obj_map {V W} (f : V -> W) (o : Obj V) : Obj W :=
  map (fun kv => (fst kv, f (snd kv))) o.

Definition obj_keys {V} (o : Obj V) : list string := map fst o.

(** The members that an object written [{}] or [{k: v}] inherits from
    [Object.prototype]: the methods of every object and the accessor
    [__proto__]. *)
Definition Object_prototype_members : list string :=
  ["constructor"; "hasOwnProperty"; "isPrototypeOf"; "propertyIsEnumerable";
   "toLocaleString"; "toString"; "valueOf"; "__proto__";
   "__defineGetter__"; "__defineSetter__"; "__lookupGetter__";
   "__lookupSetter__"].

Definition inherited (k : string) : bool :=
  existsb (String.eqb k) Object_prototype_members.

(** [o[k]] for such an object: the entry of the object itself, else the
    inherited member of that name, a function or the prototype, else
    [undefined]. *)
Inductive Read (V : Type) :=
| Own (v : V)
| Inherited
| Undefined.

Arguments Own {V} v.
Arguments Inherited {V}.
Arguments Undefined {V}.

Definition obj_read {V} (o : Obj V) (k : string) : Read V :=
  match obj_get o k with
  | Some v => Own v
  | None => if inherited k then Inherited else Undefined
  end.

(** ** Arrays indexed by JavaScript numbers *)

Definition len {A} (l : list A) : Z := Z.of_nat (List.length l).

(** [l[i]]: [None] stands for [undefined]. *)
Definition nth_Z {A} (l : list A) (i : Z) : option A :=
  if (i <? 0)%Z then None else nth_error l (Z.to_nat i).

(** [Array.prototype.slice]: a negative bound counts from the end. *)
Definition slice_bound {A} (l : list A) (k : Z) : nat :=
  if (k <? 0)%Z then Z.to_nat (Z.max (len l + k) 0)
  else Z.to_nat (Z.min k (len l)).

Definition slice_to {A} (l : list A) (e : Z) : list A :=
  firstn (slice_bound l e) l.

Definition slice_from {A} (l : list A) (s : Z) : list A :=
  skipn (slice_bound l s) l.

(** [s.split('/')]. *)
Fixpoint split_from (sep : ascii) (cur : string) (s : string) : list string :=
  match s with
  | EmptyString => [cur]
  | String c s' =>
      if Ascii.eqb c sep then cur :: split_from sep "" s'
      else split_from sep (cur ++ String c "") s'
  end.

Definition split (sep : ascii) (s : string) : list string :=
  split_from sep "" s.

Definition slash : ascii := "/"%char.

(** A string is truthy when it is not empty. *)
Definition truthy (s : string) : bool := negb (String.eqb s "").

(** ** Segment model

    Modelled from the spec: the classes [UrlSegment], [UrlSegmentGroup] and
    [UrlTree] of url_tree.ts are not in src/.  A segment is "a path token
    (string) plus a mapping of matrix-parameter names to string values"; a
    group "an ordered sequence of Segments plus a mapping from outlet name to
    child SegmentGroup", with "a weak back-reference to its parent group"; a
    tree "a root SegmentGroup, a query-parameter mapping and an optional
    fragment string".  All are immutable. *)

Definition PRIMARY_OUTLET : string := "primary".

Record UrlSegment := mkUrlSegment {
  path : string;
  parameters : Obj string
}.

Inductive UrlSegmentGroup :=
| Group (segments : list UrlSegment) (children : Obj UrlSegmentGroup).

Definition segments (g : UrlSegmentGroup) : list UrlSegment :=
  match g with Group s _ => s end.

Definition children (g : UrlSegmentGroup) : Obj UrlSegmentGroup :=
  match g with Group _ c => c end.

Definition hasChildren (g : UrlSegmentGroup) : bool :=
  match children g with [] => false | _ :: _ => true end.

(** A group object inside a tree.  The [parent] link of the source is the
    enclosing group: [above] lists, innermost first, the groups on the way to
    the root, each with the outlet under which the walk came and its other
    children.  Two references into one tree denote the same object exactly
    when their outlet paths from the root agree. *)

Record Frame := mkFrame {
  fr_segments : list UrlSegment;
  fr_before : Obj UrlSegmentGroup;
  fr_outlet : string;
  fr_after : Obj UrlSegmentGroup
}.

Record GroupRef := mkRef {
  node : UrlSegmentGroup;
  above : list Frame
}.

Definition plug (f : Frame) (g : UrlSegmentGroup) : UrlSegmentGroup :=
  Group (fr_segments f) (fr_before f ++ (fr_outlet f, g) :: fr_after f).

(** [g.parent], [None] for [null]. *)
Definition parent (g : GroupRef) : option GroupRef :=
  match above g with
  | [] => None
  | f :: up => Some (mkRef (plug f (node g)) up)
  end.

Definition outlet_path (g : GroupRef) : list string :=
  rev (map fr_outlet (above g)).

(** [a === b] for two group objects of one tree. *)
Definition same_node (a b : GroupRef) : bool :=
  if list_eq_dec string_dec (outlet_path a) (outlet_path b) then true else false.

Definition Params := Obj string.

Inductive QueryValue :=
| QScalar (v : string)
| QArray (vs : list string).

Record UrlTree := mkUrlTree {
  root : UrlSegmentGroup;
  queryParams : Obj QueryValue;
  fragment : option string
}.

(** ** Commands

    The values that occur in a command array, by the tests the code applies to
    them.  Values other than strings are kept by their template-literal
    rendering, which is all the code reads of them.
    - [CStr s]: the string [s];
    - [CRaw s]: a primitive that is not a string (number, boolean, [null],
      [undefined]) and renders as [s];
    - [CParams ps]: a plain object with the entries [ps] that the code takes
      for matrix parameters, each value by its rendering: it has no entry
      under the key [outlets], and under the key [segmentPath] at most the
      empty string, which the tests [cmd.segmentPath] and
      [!command.segmentPath] do not tell from an absent entry;
    - [COutlets os]: an object whose [outlets] is the object [os];
    - [CSegmentPath c p]: an object without [outlets] whose [segmentPath] is
      the non-empty string [String c p].
    The value of an outlet is [null], a string or an array of commands. *)

Inductive OutletValue (C : Type) :=
| ONull
| OStr (s : string)
| OList (cs : list C).

Arguments ONull {C}.
Arguments OStr {C} s.
Arguments OList {C} cs.

Inductive Command :=
| CStr (s : string)
| CRaw (s : string)
| CParams (ps : Params)
| COutlets (os : Obj (OutletValue Command))
| CSegmentPath (c : ascii) (p : string).

Definition Outlets := Obj (OutletValue Command).

Definition object_Object : string := "[object Object]".

(** [`${command}`]. *)
Definition template (command : Command) : string :=
  match command with
  | CStr s => s
  | CRaw s => s
  | CParams _ | COutlets _ | CSegmentPath _ _ => object_Object
  end.

(** The own entries of an object command, values rendered. *)
Definition entries (command : Command) : Params :=
  match command with
  | CParams ps => ps
  | CSegmentPath c p => [("segmentPath", String c p)]
  | _ => []
  end.

Definition isMatrixParams (command : Command) : bool :=
  match command with
  | CParams _ => true
  | _ => false
  end.

Definition isCommandWithOutlets (command : Command) : bool :=
  match command with
  | COutlets _ => true
  | _ => false
  end.

(** The object [{segmentPath: p}]. *)
Definition segmentPath_object (p : string) : Command :=
  match p with
  | EmptyString => CParams [("segmentPath", "")]
  | String c p' => CSegmentPath c p'
  end.

(** [commands[0] == '/']: a string equal to ['/']; no other value of the model
    compares equal to it. *)
Definition loosely_slash (command : Command) : bool :=
  match command with
  | CStr s => String.eqb s "/"
  | _ => false
  end.

(** ** Navigation normalizer *)

Record Navigation := mkNavigation {
  isAbsolute : bool;
  numberOfDoubleDots : Z;
  commands : list Command
}.

(** Index of the first element that satisfies [p] ([Array.prototype.find]). *)
Fixpoint find_index {A} (p : A -> bool) (l : list A) : option nat :=
  match l with
  | [] => None
  | x :: l' =>
      if p x then Some O
      else match find_index p l' with
           | Some i => Some (S i)
           | None => None
           end
  end.

(** The constructor of [Navigation].  Every outlets command of a normalized
    list is an object of its own, so [cmdWithOutlet !== last(commands)] is a
    comparison of positions. *)
Definition new_Navigation (isAbsolute : bool) (numberOfDoubleDots : Z)
    (commands : list Command) : result Navigation :=
  if isAbsolute && negb (Nat.eqb (List.length commands) 0)
     && match commands with c :: _ => isMatrixParams c | [] => false end
  then Throw (RuntimeError ROOT_SEGMENT_MATRIX_PARAMS)
  else
    match find_index isCommandWithOutlets commands with
    | Some i =>
        if negb (Nat.eqb (S i) (List.length commands))
        then Throw (RuntimeError MISPLACED_OUTLETS_COMMAND)
        else Ok (mkNavigation isAbsolute numberOfDoubleDots commands)
    | None => Ok (mkNavigation isAbsolute numberOfDoubleDots commands)
    end.

Definition toRoot (nav : Navigation) : bool :=
  isAbsolute nav
  && match commands nav with
     | [c] => loosely_slash c
     | _ => false
     end.

(** The variables the reducer of [computeNavigation] works on. *)
Record NavState := mkNavState {
  st_res : list Command;
  st_isAbsolute : bool;
  st_numberOfDoubleDots : Z
}.

(** The callback of [cmd.split('/').forEach]. *)
Definition split_part (st : NavState) (urlPart : string) (partIndex : nat)
    : NavState :=
  if Nat.eqb partIndex 0 && String.eqb urlPart "." then st
  else if Nat.eqb partIndex 0 && String.eqb urlPart "" then
    mkNavState (st_res st) true (st_numberOfDoubleDots st)
  else if String.eqb urlPart ".." then
    mkNavState (st_res st) (st_isAbsolute st) (st_numberOfDoubleDots st + 1)
  else if negb (String.eqb urlPart "") then
    mkNavState (st_res st ++ [CStr urlPart]) (st_isAbsolute st)
               (st_numberOfDoubleDots st)
  else st.

Fixpoint split_parts (st : NavState) (parts : list string) (partIndex : nat)
    : NavState :=
  match parts with
  | [] => st
  | urlPart :: parts' =>
      split_parts (split_part st urlPart partIndex) parts' (S partIndex)
  end.

Definition normalize_outlet (v : OutletValue Command) : OutletValue Command :=
  match v with
  | OStr s => OList (map CStr (split slash s))
  | _ => v
  end.

Definition push (st : NavState) (c : Command) : NavState :=
  mkNavState (st_res st ++ [c]) (st_isAbsolute st) (st_numberOfDoubleDots st).

(** The reducer of [computeNavigation]. *)
Definition reduce_step (st : NavState) (cmd : Command) (cmdIdx : nat)
    : NavState :=
  match cmd with
  | COutlets os => push st (COutlets (obj_map normalize_outlet os))
  | CSegmentPath c p => push st (CStr (String c p))
  | CStr s =>
      if Nat.eqb cmdIdx 0 then split_parts st (split slash s) 0
      else push st cmd
  | _ => push st cmd
  end.

Fixpoint reduce (st : NavState) (cmds : list Command) (cmdIdx : nat)
    : NavState :=
  match cmds with
  | [] => st
  | cmd :: cmds' => reduce (reduce_step st cmd cmdIdx) cmds' (S cmdIdx)
  end.

(** [typeof commands[0] === 'string' && commands.length === 1 &&
    commands[0] === '/'] *)
Definition is_root_marker (commands : list Command) : bool :=
  match commands with
  | [CStr s] => String.eqb s "/"
  | _ => false
  end.

Definition computeNavigation (commands : list Command) : result Navigation :=
  if is_root_marker commands then new_Navigation true 0 commands
  else
    let st := reduce (mkNavState [] false 0) commands 0 in
    new_Navigation (st_isAbsolute st) (st_numberOfDoubleDots st) (st_res st).

(** ** Position resolver *)

Record Position := mkPosition {
  segmentGroup : GroupRef;
  processChildren : bool;
  index : Z
}.

(** [while (root.parent) root = root.parent]. *)
Fixpoint walk_up (g : UrlSegmentGroup) (up : list Frame) : UrlSegmentGroup :=
  match up with
  | [] => g
  | f :: up' => walk_up (plug f g) up'
  end.

Definition root_of (g : GroupRef) : GroupRef :=
  mkRef (walk_up (node g) (above g)) [].

(** The loop of [createPositionApplyingDoubleDots] on the group [g] whose
    ancestors are [up]; one ancestor is left behind per iteration. *)
Fixpoint applyDoubleDots (g : UrlSegmentGroup) (up : list Frame) (ci dd : Z)
    : result Position :=
  if (dd >? ci)%Z then
    match up with
    | [] => Throw (RuntimeError INVALID_DOUBLE_DOTS)
    | f :: up' => applyDoubleDots (plug f g) up' (len (fr_segments f)) (dd - ci)
    end
  else Ok (mkPosition (mkRef g up) false (ci - dd)).

Definition createPositionApplyingDoubleDots (group : GroupRef) (index : Z)
    (numberOfDoubleDots : Z) : result Position :=
  applyDoubleDots (node group) (above group) index numberOfDoubleDots.

(** [isMatrixParams(nav.commands[0]) ? 0 : 1] *)
Definition modifier (nav : Navigation) : Z :=
  match commands nav with
  | c :: _ => if isMatrixParams c then 0%Z else 1%Z
  | [] => 1%Z
  end.

(** [target] is a group object; the branch for a falsy [target] is not
    modelled. *)
Definition findStartingPositionForTargetGroup (nav : Navigation)
    (root target : GroupRef) : result Position :=
  if isAbsolute nav then Ok (mkPosition root true 0)
  else
    match parent target with
    | None => Ok (mkPosition target true 0)
    | Some _ =>
        let index := (len (segments (node target)) - 1 + modifier nav)%Z in
        createPositionApplyingDoubleDots target index (numberOfDoubleDots nav)
    end.

(** [findStartingPosition]: [segmentGroup] is a group object of [tree], whose
    root it is when nothing lies above it. *)
Definition findStartingPosition (nav : Navigation) (tree_root : GroupRef)
    (segmentGroup : GroupRef) (lastPathIndex : Z) : result Position :=
  if isAbsolute nav then Ok (mkPosition tree_root true 0)
  else if (lastPathIndex =? -1)%Z then
    let processChildren := same_node segmentGroup tree_root in
    Ok (mkPosition segmentGroup processChildren 0)
  else
    let index := (lastPathIndex + modifier nav)%Z in
    createPositionApplyingDoubleDots segmentGroup index (numberOfDoubleDots nav).

(** ** Segment-group updater *)

Definition string_opt_eqb (a b : option string) : bool :=
  match a, b with
  | Some x, Some y => String.eqb x y
  | None, None => true
  | _, _ => false
  end.

(** Modelled from the spec: [shallowEqual] of utils/collection.ts is not in
    src/.  "Equality of parameter maps is a shallow key/value comparison
    (same key set, same stringified values, order irrelevant)." *)
Definition shallowEqual (a b : Params) : bool :=
  forallb (fun kv => string_opt_eqb (obj_get b (fst kv)) (Some (snd kv))) a
  && forallb (fun kv => string_opt_eqb (obj_get a (fst kv)) (Some (snd kv))) b.

Definition compare (path' : string) (params : Params) (segment : UrlSegment)
    : bool :=
  String.eqb path' (path segment) && shallowEqual params (parameters segment).

Record PrefixMatch := mkMatch {
  match_ : bool;
  pathIndex : Z;
  commandIndex : Z
}.

Definition noMatch : PrefixMatch := mkMatch false 0 0.

(** [typeof next === 'object' && next.outlets === undefined], for a [next]
    that is not [null]. *)
Definition isObjectWithoutOutlets (next : Command) : bool :=
  match next with
  | CParams _ | CSegmentPath _ _ => true
  | _ => false
  end.

(** The loop of [prefixedWith]; [rest] holds the commands from
    [currentCommandIndex] on, so that [currentCommandIndex >= commands.length]
    reads [rest = []].  [curr] is a string, never [undefined]: the second
    [break] of the source cannot be taken.  A [path] that is [undefined] makes
    [compare] read a property of [undefined]. *)
Fixpoint prefixedWith_loop (segs : list UrlSegment) (currentPathIndex : Z)
    (currentCommandIndex : Z) (rest : list Command) : result PrefixMatch :=
  if (currentPathIndex <? len segs)%Z then
    match rest with
    | [] => Ok noMatch
    | command :: rest' =>
        if isCommandWithOutlets command then
          Ok (mkMatch true currentPathIndex currentCommandIndex)
        else
          match nth_Z segs currentPathIndex with
          | None => Throw TypeError
          | Some path' =>
              let curr := template command in
              let one_token :=
                if compare curr [] path' then
                  prefixedWith_loop segs (currentPathIndex + 1)
                                    (currentCommandIndex + 1) rest'
                else Ok noMatch in
              match rest' with
              | next :: rest'' =>
                  if truthy curr && isObjectWithoutOutlets next then
                    if compare curr (entries next) path' then
                      prefixedWith_loop segs (currentPathIndex + 1)
                                        (currentCommandIndex + 2) rest''
                    else Ok noMatch
                  else one_token
              | [] => one_token
              end
          end
    end
  else Ok (mkMatch true currentPathIndex currentCommandIndex).

Definition prefixedWith (segmentGroup : UrlSegmentGroup) (startIndex : Z)
    (commands : list Command) : result PrefixMatch :=
  prefixedWith_loop (segments segmentGroup) startIndex 0%Z commands.

(** [stringify(params)]: the values are held by their rendering already. *)
Definition stringify (params : Command) : Params :=
  obj_map (fun v : string => v) (entries params).

Definition getOutlets (commands : list Command) : Outlets :=
  match commands with
  | COutlets os :: _ => os
  | _ => [(PRIMARY_OUTLET, OList commands)]
  end.

(** [if (typeof commands === 'string') commands = [commands]], and [None]
    when [commands] is [null]. *)
Definition outlet_commands (v : OutletValue Command) : option (list Command) :=
  match v with
  | ONull => None
  | OStr s => Some [CStr s]
  | OList cs => Some cs
  end.

(** [forEach(outlets, (commands, outlet) => { ... children[outlet] = f(...) })]
    with a callback that may throw. *)
Fixpoint forEach_outlet (outlets : Outlets)
    (f : string -> list Command -> result UrlSegmentGroup)
    (children : Obj UrlSegmentGroup) : result (Obj UrlSegmentGroup) :=
  match outlets with
  | [] => Ok children
  | (outlet, v) :: outlets' =>
      match outlet_commands v with
      | None => forEach_outlet outlets' f children
      | Some commands =>
          g <- f outlet commands ;;
          forEach_outlet outlets' f (obj_set children outlet g)
      end
  end.

(** The loop of [createNewSegmentGroup] from command [i] on; [rest] holds the
    commands from [i] on. *)
Fixpoint createNewSegmentGroup_loop
    (createNewSegmentChildren : Outlets -> result (Obj UrlSegmentGroup))
    (segs : list UrlSegment) (startIndex : Z)
    (paths : list UrlSegment) (i : Z) (rest : list Command)
    : result UrlSegmentGroup :=
  match rest with
  | [] => Ok (Group paths [])
  | command :: rest' =>
      match command with
      | COutlets os =>
          children <- createNewSegmentChildren os ;;
          Ok (Group paths children)
      | _ =>
          if (i =? 0)%Z && isMatrixParams command then
            match nth_Z segs startIndex with
            | None => Throw TypeError
            | Some p =>
                createNewSegmentGroup_loop createNewSegmentChildren segs
                  startIndex
                  (paths ++ [mkUrlSegment (path p) (stringify command)])
                  (i + 1) rest'
            end
          else
            let curr := template command in
            let one_token :=
              createNewSegmentGroup_loop createNewSegmentChildren segs
                startIndex (paths ++ [mkUrlSegment curr []]) (i + 1) rest' in
            match rest' with
            | next :: rest'' =>
                if truthy curr && isMatrixParams next then
                  createNewSegmentGroup_loop createNewSegmentChildren segs
                    startIndex (paths ++ [mkUrlSegment curr (stringify next)])
                    (i + 2) rest''
                else one_token
            | [] => one_token
            end
      end
  end.

Fixpoint createNewSegmentGroup_fuel (fuel : nat) (segmentGroup : UrlSegmentGroup)
    (startIndex : Z) (commands : list Command) : result UrlSegmentGroup :=
  match fuel with
  | O => OutOfFuel
  | S fuel' =>
      let createNewSegmentChildren (outlets : Outlets) :=
        forEach_outlet outlets
          (fun _ commands =>
             createNewSegmentGroup_fuel fuel' (Group [] []) 0%Z commands) [] in
      createNewSegmentGroup_loop createNewSegmentChildren
        (segments segmentGroup) startIndex
        (slice_to (segments segmentGroup) startIndex) 0%Z commands
  end.

(** Nesting of outlets commands, the measure of the recursion on commands. *)
Fixpoint cmd_depth (c : Command) : nat :=
  match c with
  | COutlets os =>
      S (list_max
           (map (fun kv => match snd kv with
                           | OList cs => list_max (map cmd_depth cs)
                           | _ => O
                           end) os))
  | _ => O
  end.

Definition depth (commands : list Command) : nat :=
  list_max (map cmd_depth commands).

Fixpoint height (g : UrlSegmentGroup) : nat :=
  match g with
  | Group _ cs => list_max (map (fun kv => S (height (snd kv))) cs)
  end.

Definition createNewSegmentGroup (segmentGroup : UrlSegmentGroup)
    (startIndex : Z) (commands : list Command) : result UrlSegmentGroup :=
  createNewSegmentGroup_fuel (S (depth commands)) segmentGroup startIndex
    commands.

Definition createNewSegmentChildren (outlets : Outlets)
    : result (Obj UrlSegmentGroup) :=
  forEach_outlet outlets
    (fun _ commands => createNewSegmentGroup (Group [] []) 0%Z commands) [].

(** The second [forEach] of [updateSegmentGroupChildren]:
    [if (outlets[childOutlet] === undefined) children[childOutlet] = child].
    [outlets] is an object written [{}] or [{[PRIMARY_OUTLET]: commands}], and
    none of its entries is [undefined]. *)
Fixpoint keep_untouched (outlets : Outlets) (old : Obj UrlSegmentGroup)
    (children : Obj UrlSegmentGroup) : Obj UrlSegmentGroup :=
  match old with
  | [] => children
  | (childOutlet, child) :: old' =>
      keep_untouched outlets old'
        match obj_read outlets childOutlet with
        | Undefined => obj_set children childOutlet child
        | _ => children
        end
  end.

(** [updateSegmentGroup(segmentGroup.children[outlet], startIndex, commands)].
    The children of a group are an object written [{}]: under the name of an
    inherited member the read gives that member, which is not [undefined] and
    has no [segments], so that [segmentGroup.segments.length] throws a
    [TypeError]. *)
Definition update_child
    (updateSegmentGroup :
       option UrlSegmentGroup -> Z -> list Command -> result UrlSegmentGroup)
    (children : Obj UrlSegmentGroup) (outlet : string) (startIndex : Z)
    (commands : list Command) : result UrlSegmentGroup :=
  match obj_read children outlet with
  | Own child => updateSegmentGroup (Some child) startIndex commands
  | Undefined => updateSegmentGroup None startIndex commands
  | Inherited => Throw TypeError
  end.

(** [updateSegmentGroupChildren], given the function it recurses into. *)
Definition updateSegmentGroupChildren_body
    (updateSegmentGroup :
       option UrlSegmentGroup -> Z -> list Command -> result UrlSegmentGroup)
    (segmentGroup : UrlSegmentGroup) (startIndex : Z)
    (commands : list Command) : result UrlSegmentGroup :=
  match commands with
  | [] => Ok (Group (segments segmentGroup) [])
  | _ :: _ =>
      let outlets := getOutlets commands in
      children' <-
        forEach_outlet outlets
          (fun outlet commands =>
             update_child updateSegmentGroup (children segmentGroup) outlet
                          startIndex commands) [] ;;
      Ok (Group (segments segmentGroup)
                (keep_untouched outlets (children segmentGroup) children'))
  end.

(** [updateSegmentGroup], given [updateSegmentGroupChildren]; [None] is an
    absent group. *)
Definition updateSegmentGroup_body
    (updateSegmentGroupChildren :
       UrlSegmentGroup -> Z -> list Command -> result UrlSegmentGroup)
    (segmentGroup : option UrlSegmentGroup) (startIndex : Z)
    (commands : list Command) : result UrlSegmentGroup :=
  let segmentGroup :=
    match segmentGroup with Some g => g | None => Group [] [] end in
  let segs := segments segmentGroup in
  if (len segs =? 0)%Z && hasChildren segmentGroup then
    updateSegmentGroupChildren segmentGroup startIndex commands
  else
    m <- prefixedWith segmentGroup startIndex commands ;;
    let slicedCommands := slice_from commands (commandIndex m) in
    if match_ m && (pathIndex m <? len segs)%Z then
      let g :=
        Group (slice_to segs (pathIndex m))
              [(PRIMARY_OUTLET,
                Group (slice_from segs (pathIndex m)) (children segmentGroup))] in
      updateSegmentGroupChildren g 0%Z slicedCommands
    else if match_ m && (len slicedCommands =? 0)%Z then
      Ok (Group segs [])
    else if match_ m && negb (hasChildren segmentGroup) then
      createNewSegmentGroup segmentGroup startIndex commands
    else if match_ m then
      updateSegmentGroupChildren segmentGroup 0%Z slicedCommands
    else createNewSegmentGroup segmentGroup startIndex commands.

Fixpoint updateSegmentGroup_fuel (fuel : nat)
    (segmentGroup : option UrlSegmentGroup) (startIndex : Z)
    (commands : list Command) : result UrlSegmentGroup :=
  match fuel with
  | O => OutOfFuel
  | S fuel' =>
      updateSegmentGroup_body
        (updateSegmentGroupChildren_body (updateSegmentGroup_fuel fuel'))
        segmentGroup startIndex commands
  end.

Definition height_opt (g : option UrlSegmentGroup) : nat :=
  match g with Some g => height g | None => O end.

Definition updateSegmentGroup (segmentGroup : option UrlSegmentGroup)
    (startIndex : Z) (commands : list Command) : result UrlSegmentGroup :=
  updateSegmentGroup_fuel (S (depth commands + height_opt segmentGroup))
    segmentGroup startIndex commands.

Definition updateSegmentGroupChildren (segmentGroup : UrlSegmentGroup)
    (startIndex : Z) (commands : list Command) : result UrlSegmentGroup :=
  updateSegmentGroupChildren_body
    (updateSegmentGroup_fuel (S (depth commands + height segmentGroup)))
    segmentGroup startIndex commands.

(** ** Tree assembler *)

(** The place of [oldSegment] below [current]: [Some p] when it lies under
    the outlets [p], [None] when it is not below [current]. *)
Definition is_child (oldSegment : option (list string)) (outletName : string)
    : bool :=
  match oldSegment with
  | Some [o] => String.eqb o outletName
  | _ => false
  end.

Definition below (oldSegment : option (list string)) (outletName : string)
    : option (list string) :=
  match oldSegment with
  | Some (o :: p) => if String.eqb o outletName then Some p else None
  | _ => None
  end.

Fixpoint replaceSegment (current : UrlSegmentGroup)
    (oldSegment : option (list string)) (newSegment : UrlSegmentGroup)
    : UrlSegmentGroup :=
  match current with
  | Group segs cs =>
      Group segs
        (map (fun kv =>
                (fst kv,
                 if is_child oldSegment (fst kv) then newSegment
                 else replaceSegment (snd kv) (below oldSegment (fst kv))
                                     newSegment)) cs)
  end.

(** Modelled from the spec: [squashSegmentGroup] of url_tree.ts is not in
    src/.  "Recursively collapse any non-root group that has an empty segment
    list and exactly one outlet child into that child."  [squash_child] is the
    collapse of a group that is not the root. *)
Fixpoint squash_child (g : UrlSegmentGroup) : UrlSegmentGroup :=
  match g with
  | Group segs cs =>
      let cs' := map (fun kv => (fst kv, squash_child (snd kv))) cs in
      match segs, cs' with
      | [], [(_, c)] => c
      | _, _ => Group segs cs'
      end
  end.

Definition squashSegmentGroup (rootCandidate : UrlSegmentGroup)
    : UrlSegmentGroup :=
  Group (segments rootCandidate) (obj_map squash_child (children rootCandidate)).

(** Modelled from the spec: [createRoot] of url_tree.ts is not in src/.  The
    Tree Assembler of the spec takes the squashed candidate as the root of
    the final tree, with no step in between. *)
Definition createRoot (rootCandidate : UrlSegmentGroup) : UrlSegmentGroup :=
  rootCandidate.

(** [Array.isArray(value) ? value.map(v => `${v}`) : `${value}`] *)
Definition stringify_query (value : QueryValue) : QueryValue :=
  match value with
  | QScalar v => QScalar v
  | QArray vs => QArray (map (fun v : string => v) vs)
  end.

Definition tree (oldRoot oldSegmentGroup : GroupRef)
    (newSegmentGroup : UrlSegmentGroup)
    (queryParams : option (Obj QueryValue)) (fragment : option string)
    : UrlTree :=
  let qp :=
    match queryParams with
    | Some q => obj_map stringify_query q
    | None => []
    end in
  let rootCandidate :=
    if same_node oldRoot oldSegmentGroup then newSegmentGroup
    else replaceSegment (node oldRoot) (Some (outlet_path oldSegmentGroup))
                        newSegmentGroup in
  let newRoot := createRoot (squashSegmentGroup rootCandidate) in
  mkUrlTree newRoot qp fragment.

(** ** Entry points *)

Definition apply_at (position : Position) (nav : Navigation)
    : result UrlSegmentGroup :=
  if processChildren position then
    updateSegmentGroupChildren (node (segmentGroup position)) (index position)
                               (commands nav)
  else
    updateSegmentGroup (Some (node (segmentGroup position))) (index position)
                       (commands nav).

Definition createUrlTreeFromSegmentGroup (relativeTo : GroupRef)
    (commands : list Command) (queryParams : option (Obj QueryValue))
    (fragment : option string) : result UrlTree :=
  let root := root_of relativeTo in
  match commands with
  | [] => Ok (tree root root (node root) queryParams fragment)
  | _ :: _ =>
      nav <- computeNavigation commands ;;
      if toRoot nav then Ok (tree root root (Group [] []) queryParams fragment)
      else
        position <- findStartingPositionForTargetGroup nav root relativeTo ;;
        newSegmentGroup <- apply_at position nav ;;
        Ok (tree root (segmentGroup position) newSegmentGroup queryParams
                 fragment)
  end.

(** The fields of [route.snapshot] that [createUrlTree] reads.  The segment
    group of the route is a group object of [urlTree]. *)
Record ActivatedRoute := mkActivatedRoute {
  _urlSegment : GroupRef;
  _lastPathIndex : Z
}.

Definition createUrlTree (route : ActivatedRoute) (urlTree : UrlTree)
    (commands : list Command) (queryParams : option (Obj QueryValue))
    (fragment : option string) : result UrlTree :=
  let urlTree_root := mkRef (root urlTree) [] in
  match commands with
  | [] =>
      Ok (tree urlTree_root urlTree_root (root urlTree) queryParams fragment)
  | _ :: _ =>
      nav <- computeNavigation commands ;;
      if toRoot nav then
        Ok (tree urlTree_root urlTree_root (Group [] []) queryParams fragment)
      else
        startingPosition <-
          findStartingPosition nav urlTree_root (_urlSegment route)
                               (_lastPathIndex route) ;;
        segmentGroup' <- apply_at startingPosition nav ;;
        Ok (tree urlTree_root (segmentGroup startingPosition) segmentGroup'
                 queryParams fragment)
  end.

(** ** URL notation

    Modelled from the spec: the serializer is not in src/.  This is the
    notation in which the spec writes trees: segments joined by [/], matrix
    parameters as [;key=value], the outlets of a group in parentheses,
    separated by [//], the primary one first and the others as
    [name:path].  It is only used to display the trees of the examples. *)

Fixpoint join (sep : string) (l : list string) : string :=
  match l with
  | [] => ""
  | [x] => x
  | x :: l' => (x ++ sep ++ join sep l')%string
  end.

Definition serializePath (s : UrlSegment) : string :=
  (path s
   ++ join "" (map (fun kv => ";" ++ fst kv ++ "=" ++ snd kv) (parameters s)))%string.

Definition serializePaths (segs : list UrlSegment) : string :=
  join "/" (map serializePath segs).

Definition is_primary (k : string) : bool := String.eqb k PRIMARY_OUTLET.

(** The children of a group, written out: the primary child, then the others
    with their names. *)
Definition primary_of (ss : Obj string) : list string :=
  map snd (filter (fun kv => is_primary (fst kv)) ss).

Definition others_of (ss : Obj string) : list string :=
  map (fun kv => (fst kv ++ ":" ++ snd kv)%string)
      (filter (fun kv => negb (is_primary (fst kv))) ss).

Fixpoint serializeSegment (g : UrlSegmentGroup) : string :=
  match g with
  | Group segs [] => serializePaths segs
  | Group segs cs =>
      let ss := map (fun kv => (fst kv, serializeSegment (snd kv))) cs in
      match others_of ss with
      | [] => (serializePaths segs ++ "/" ++ join "//" (primary_of ss))%string
      | others =>
          (serializePaths segs ++ "/("
             ++ join "//" (primary_of ss ++ others)%list ++ ")")%string
      end
  end.

Definition serializeRoot (g : UrlSegmentGroup) : string :=
  let ss := obj_map serializeSegment (children g) in
  match others_of ss with
  | [] => ("/" ++ join "" (primary_of ss))%string
  | others =>
      ("/" ++ join "" (primary_of ss) ++ "(" ++ join "//" others ++ ")")%string
  end.

(** * What the specification states, in definitions *)

(** ** Outcomes of the recursive rewrites *)

Definition returns_or_TypeError {A} (r : result A) : Prop :=
  match r with
  | Ok _ => True
  | Throw TypeError => True
  | _ => False
  end.

(** [r2] is [r1], or [r1] ran out of fuel. *)
Definition refines {A} (r1 r2 : result A) : Prop :=
  r1 = OutOfFuel \/ r1 = r2.

(** [fuel] suffices for every call that outlet-children processing of [sg]
    with [cmds] makes. *)
Definition enough_fuel (fuel : nat) (sg : UrlSegmentGroup)
    (cmds : list Command) : Prop :=
  forall o v cs,
    In (o, v) (getOutlets cmds) -> outlet_commands v = Some cs ->
    depth cs + height_opt (obj_get (children sg) o) < fuel.

(** ** Double-dot consumption, as specified *)

(** Double-dot consumption in the words of the specification: "while
    [dd > ci], subtract [ci] from [dd], move [g] to [g.parent] (raising
    [InvalidDoubleDots] if no parent exists), and reset [ci] to
    [g.segments.length].  Terminate with [Position(g, false, ci - dd)]." *)
Inductive doubleDotConsumption : GroupRef -> Z -> Z -> result Position -> Prop :=
| ddc_terminate (g : GroupRef) (ci dd : Z) :
    (dd <= ci)%Z ->
    doubleDotConsumption g ci dd (Ok (mkPosition g false (ci - dd)))
| ddc_no_parent (g : GroupRef) (ci dd : Z) :
    (dd > ci)%Z -> parent g = None ->
    doubleDotConsumption g ci dd (Throw (RuntimeError INVALID_DOUBLE_DOTS))
| ddc_move_up (g p : GroupRef) (ci dd : Z) (r : result Position) :
    (dd > ci)%Z -> parent g = Some p ->
    doubleDotConsumption p (len (segments (node p))) (dd - ci)%Z r ->
    doubleDotConsumption g ci dd r.

(** The segments of the ancestors of a group: the levels that [..] tokens can
    climb above it. *)
Definition levels_above (g : GroupRef) : Z :=
  fold_right (fun f acc => (len (fr_segments f) + acc)%Z) 0%Z (above g).

(** ** Normalization, as specified *)

(** The state in which [computeNavigation] calls the constructor of
    [Navigation]: the normalized command list with the two flags. *)
Definition normalized (cmds : list Command) : NavState :=
  if is_root_marker cmds then mkNavState cmds true 0
  else reduce (mkNavState [] false 0) cmds 0.

(** An outlets command stands at a position other than the last. *)
Definition has_misplaced_outlets (cmds : list Command) : bool :=
  existsb isCommandWithOutlets (removelast cmds).

(** Absolute, with a matrix-parameter object as first command: the case the
    constructor of [Navigation] rejects first. *)
Definition root_with_matrix_params (st : NavState) : bool :=
  st_isAbsolute st
  && match st_res st with c :: _ => isMatrixParams c | [] => false end.

(** The normalization in the words of the specification.  A sub-token of the
    first token is classified by its text and its position. *)
Inductive SubToken :=
| SetsAbsolute
| Ignored
| DoubleDot
| Appended (urlPart : string)
| NoEffect.

Definition classify (partIndex : nat) (urlPart : string) : SubToken :=
  if String.eqb urlPart "" then
    if Nat.eqb partIndex 0 then SetsAbsolute else NoEffect
  else if String.eqb urlPart "." && Nat.eqb partIndex 0 then Ignored
  else if String.eqb urlPart ".." then DoubleDot
  else Appended urlPart.

Fixpoint classes (partIndex : nat) (parts : list string) : list SubToken :=
  match parts with
  | [] => []
  | urlPart :: parts' => classify partIndex urlPart :: classes (S partIndex) parts'
  end.

Definition sets_absolute (t : SubToken) : bool :=
  match t with SetsAbsolute => true | _ => false end.

Definition is_double_dot (t : SubToken) : bool :=
  match t with DoubleDot => true | _ => false end.

Definition appended (ts : list SubToken) : list Command :=
  flat_map (fun t => match t with Appended p => [CStr p] | _ => [] end) ts.

(** A token that is not split: "passed through, except that an outlets-object
    has string outlet values normalized to lists and a segmentPath-object is
    replaced by its path string", the latter when the path is not empty: an
    object whose [segmentPath] is the empty string is passed through. *)
Definition passed_through (cmd : Command) : Command :=
  match cmd with
  | COutlets os => COutlets (obj_map normalize_outlet os)
  | CSegmentPath c p => CStr (String c p)
  | _ => cmd
  end.

Definition spec_normalized (cmds : list Command) : NavState :=
  match cmds with
  | CStr s :: cmds' =>
      let ts := classes 0 (split slash s) in
      mkNavState (appended ts ++ map passed_through cmds')
                 (existsb sets_absolute ts)
                 (Z.of_nat (List.length (filter is_double_dot ts)))
  | _ => mkNavState (map passed_through cmds) false 0
  end.

(** ** Prefix matching, as specified *)

(** The parameters a path command is compared with: those of the command
    after it when that is an object without an [outlets] key and the path
    command is not the empty string; otherwise none are expected. *)
Definition takes_parameters (command : Command) (next : option Command)
    : option Params :=
  match next with
  | Some n =>
      if truthy (template command) && isObjectWithoutOutlets n
      then Some (entries n) else None
  | None => None
  end.

Definition expected (ps : option Params) : Params :=
  match ps with Some ps => ps | None => [] end.

Definition consumed (ps : option Params) : Z :=
  match ps with Some _ => 2%Z | None => 1%Z end.

(** The walk of the specification over the segments, from path index [p], and
    the commands, from command index [k], in lockstep. *)
Inductive prefixWalk (segs : list UrlSegment) (cmds : list Command)
    : Z -> Z -> PrefixMatch -> Prop :=
| pw_segments_consumed (p k : Z) :
    (len segs <= p)%Z ->
    prefixWalk segs cmds p k (mkMatch true p k)
| pw_commands_exhausted (p k : Z) :
    (p < len segs)%Z -> (len cmds <= k)%Z ->
    prefixWalk segs cmds p k noMatch
| pw_outlets_command (p k : Z) (os : Outlets) :
    (p < len segs)%Z -> nth_Z cmds k = Some (COutlets os) ->
    prefixWalk segs cmds p k (mkMatch true p k)
| pw_mismatch (p k : Z) (command : Command) (segment : UrlSegment) :
    (p < len segs)%Z -> nth_Z cmds k = Some command ->
    isCommandWithOutlets command = false ->
    nth_Z segs p = Some segment ->
    compare (template command)
            (expected (takes_parameters command (nth_Z cmds (k + 1))))
            segment = false ->
    prefixWalk segs cmds p k noMatch
| pw_step (p k : Z) (command : Command) (segment : UrlSegment)
    (m : PrefixMatch) :
    (p < len segs)%Z -> nth_Z cmds k = Some command ->
    isCommandWithOutlets command = false ->
    nth_Z segs p = Some segment ->
    compare (template command)
            (expected (takes_parameters command (nth_Z cmds (k + 1))))
            segment = true ->
    prefixWalk segs cmds (p + 1)
               (k + consumed (takes_parameters command (nth_Z cmds (k + 1)))) m ->
    prefixWalk segs cmds p k m.

(** ** Squashed trees *)

(** A group other than the root that squashing collapses: no segments and
    exactly one child. *)
Definition collapsible (segs : list UrlSegment) (cs : Obj UrlSegmentGroup)
    : bool :=
  match segs, cs with
  | [], [_] => true
  | _, _ => false
  end.

(** No group at or below [g], a group that is not the root, is collapsible. *)
Fixpoint squashed_below (g : UrlSegmentGroup) : bool :=
  match g with
  | Group segs cs =>
      negb (collapsible segs cs)
      && forallb (fun kv => squashed_below (snd kv)) cs
  end.

(** The tree with root [r] is squashed: no group other than the root has an
    empty segment list together with exactly one outlet child. *)
Definition squashed (r : UrlSegmentGroup) : bool :=
  forallb (fun kv => squashed_below (snd kv)) (children r).

(** ** The trees of the examples *)

Definition seg (p : string) : UrlSegment := mkUrlSegment p [].

(** The group [team/33] of the tree [/team/33/(user/11//right:chat)], with its
    two outlets, as a group object of that tree. *)
Definition team_33_outlets : GroupRef :=
  mkRef (Group [seg "team"; seg "33"]
               [(PRIMARY_OUTLET, Group [seg "user"; seg "11"] []);
                ("right", Group [seg "chat"] [])])
        [mkFrame [] [] PRIMARY_OUTLET []].

(** The group [team/33] of the tree [/team/33/(user/11//constructor:chat)],
    whose secondary outlet has the name of a member of [Object.prototype]. *)
Definition team_33_constructor : GroupRef :=
  mkRef (Group [seg "team"; seg "33"]
               [(PRIMARY_OUTLET, Group [seg "user"; seg "11"] []);
                ("constructor", Group [seg "chat"] [])])
        [mkFrame [] [] PRIMARY_OUTLET []].

(** The group [team/33] of the tree [/team/33]. *)
Definition team_33 : GroupRef :=
  mkRef (Group [seg "team"; seg "33"] []) [mkFrame [] [] PRIMARY_OUTLET []].

(** The only group of the tree whose one segment has the path
    [[object Object]]. *)
Definition object_Object_group : GroupRef :=
  mkRef (Group [seg object_Object] []) [mkFrame [] [] PRIMARY_OUTLET []].

(** The group [user/11] of the tree [/team/33/(user/11//right:chat)]. *)
Definition user_11 : GroupRef :=
  mkRef (Group [seg "user"; seg "11"] [])
        [mkFrame [seg "team"; seg "33"] [] PRIMARY_OUTLET
                 [("right", Group [seg "chat"] [])];
         mkFrame [] [] PRIMARY_OUTLET []].

(** The group of an empty-path route with one child, below the root: the tree
    of a route configuration [{path: '', children: [{path: 'a'}]}]. *)
Definition empty_path_parent : GroupRef :=
  mkRef (Group [] [(PRIMARY_OUTLET, Group [seg "a"] [])])
        [mkFrame [] [] PRIMARY_OUTLET []].

(** * Further properties of the code, in definitions *)

(** ** Normalized commands *)

(** [s] is the empty string or begins with [/]. *)
Definition begins_absolute (s : string) : bool :=
  match s with
  | EmptyString => true
  | String c _ => Ascii.eqb c slash
  end.

Fixpoint has_slash (s : string) : bool :=
  match s with
  | EmptyString => false
  | String c s' => Ascii.eqb c slash || has_slash s'
  end.

(** A command that came out of the split of the first command: a string that
    is not empty, is not [..] and holds no [/]. *)
Definition is_path_token (c : Command) : bool :=
  match c with
  | CStr p => negb (String.eqb p "") && negb (String.eqb p "..")
              && negb (has_slash p)
  | _ => false
  end.

(** ** Positions and errors *)

(** The levels a relative navigation from [target] can climb with [..]
    tokens: its own segments up to the boundary, plus the segments of all its
    ancestors. *)
Definition climbable (nav : Navigation) (target : GroupRef) : Z :=
  (len (segments (node target)) - 1 + modifier nav + levels_above target)%Z.

(** ** Commands that spell out segments *)

(** Entries that an object of matrix parameters can have: none under the key
    [outlets], with which [next.outlets === undefined] fails and the object is
    not taken for parameters, and under [segmentPath] at most the empty
    string. *)
Definition matrix_parameters (ps : Params) : Prop :=
  obj_get ps "outlets" = None
  /\ (obj_get ps "segmentPath" = None \/ obj_get ps "segmentPath" = Some "").

(** The commands that name a segment: its path and, when it has parameters,
    the object of its parameters.  The object is a command of matrix
    parameters when the parameters are [matrix_parameters], which [spellable]
    asks of the segment. *)
Definition commands_of_segment (s : UrlSegment) : list Command :=
  CStr (path s)
  :: match parameters s with
     | [] => []
     | ps => [CParams ps]
     end.

Definition commands_of (segs : list UrlSegment) : list Command :=
  flat_map commands_of_segment segs.

(** A segment that commands can name: each parameter occurs once, a segment
    with parameters has a path that is not empty, and no parameter has a name
    that makes the object of the parameters another kind of command. *)
Definition spellable (s : UrlSegment) : Prop :=
  NoDup (obj_keys (parameters s))
  /\ (parameters s = [] \/ path s <> "")
  /\ matrix_parameters (parameters s).

(** A command that is a path and nothing else: a string or another
    primitive. *)
Definition is_path_command (c : Command) : bool :=
  match c with
  | CStr _ | CRaw _ => true
  | _ => false
  end.

(** The segment a path command creates. *)
Definition segment_of (c : Command) : UrlSegment :=
  mkUrlSegment (template c) [].


(** ** Replacing a group in its tree *)

(** The outlet under which a frame holds its group is a key of its own among
    the children of the frame, as the keys of an object are. *)
Definition fresh_outlet (f : Frame) : Prop :=
  ~ In (fr_outlet f) (obj_keys (fr_before f))
  /\ ~ In (fr_outlet f) (obj_keys (fr_after f)).

(** ** Route snapshots

    Modelled from the spec: the class [ActivatedRouteSnapshot] of
    router_state.ts is not in src/.  The code reads of a snapshot its [url],
    its [outlet], its [children] and its [root]: "a tree of route-match
    results exposing root, parent, children, segments/url, and outlet name".
    A route is a snapshot of a tree, given by the root of the tree and the
    indices of the children on the way to it; [currentRoute === route] holds
    at the end of that way. *)























(** * Properties *)

(** ** Objects and lists *)

Lemma obj_get_In {V} (o : Obj V) (k : string) (v : V) :
  obj_get o k = Some v -> In (k, v) o.
Proof.
  induction o as [|[k' v'] o IH]; simpl; [discriminate|].
  destruct (String.eqb k' k) eqn:E.
  - apply String.eqb_eq in E. intros [= ->]. left. now subst.
  - intros H. right. now apply IH.
Qed.

Lemma obj_get_set {V} (o : Obj V) (k k' : string) (v : V) :
  obj_get (obj_set o k v) k' = if String.eqb k k' then Some v else obj_get o k'.
Proof.
  induction o as [|[k0 v0] o IH]; simpl.
  - reflexivity.
  - destruct (String.eqb k0 k) eqn:E0; simpl.
    + apply String.eqb_eq in E0. subst k0.
      destruct (String.eqb k k'); reflexivity.
    + rewrite IH. destruct (String.eqb k0 k') eqn:E1; [|reflexivity].
      apply String.eqb_eq in E1. subst k0. now rewrite String.eqb_sym, E0.
Qed.

Lemma obj_get_None_In {V} (o : Obj V) (k : string) :
  obj_get o k = None -> ~ In k (obj_keys o).
Proof.
  induction o as [|[k' v'] o IH]; simpl; [tauto|].
  destruct (String.eqb k' k) eqn:E; [discriminate|].
  intros H [Heq|Hin]; [|now apply IH].
  apply String.eqb_neq in E. now apply E.
Qed.

Lemma list_max_In (x : nat) (l : list nat) : In x l -> x <= list_max l.
Proof.
  intros Hin.
  assert (H : Forall (fun k => k <= list_max l) l) by now apply list_max_le.
  rewrite Forall_forall in H. now apply H.
Qed.

Lemma len_nonneg {A} (l : list A) : (0 <= len l)%Z.
Proof. unfold len. lia. Qed.

(** ** The measures of the two recursive rewrites *)

Lemma cmd_depth_le_depth (c : Command) (cmds : list Command) :
  In c cmds -> cmd_depth c <= depth cmds.
Proof. intros H. apply list_max_In, in_map, H. Qed.

Lemma depth_incl (l' l : list Command) : incl l' l -> depth l' <= depth l.
Proof.
  intros H. unfold depth at 1. apply list_max_le, Forall_forall.
  intros k Hk. apply in_map_iff in Hk as (c & <- & Hc).
  apply cmd_depth_le_depth, H, Hc.
Qed.

Lemma depth_slice_from (cmds : list Command) (k : Z) :
  depth (slice_from cmds k) <= depth cmds.
Proof.
  apply depth_incl. intros c Hc. unfold slice_from in Hc.
  rewrite <- (firstn_skipn (slice_bound cmds k) cmds).
  apply in_or_app. now right.
Qed.

Lemma depth_outlet (os : Outlets) (o : string) (v : OutletValue Command)
    (cs : list Command) :
  In (o, v) os -> outlet_commands v = Some cs ->
  S (depth cs) <= cmd_depth (COutlets os).
Proof.
  intros Hin Hv. simpl. apply le_n_S.
  destruct v as [|s|cs']; simpl in Hv; inversion Hv; subst.
  - cbn. lia.
  - apply (list_max_In (depth cs)). apply in_map_iff.
    exists (o, OList cs). split; [reflexivity|exact Hin].
Qed.

Lemma getOutlets_depth (cmds : list Command) (o : string)
    (v : OutletValue Command) (cs : list Command) :
  In (o, v) (getOutlets cmds) -> outlet_commands v = Some cs ->
  cs = cmds \/ S (depth cs) <= depth cmds.
Proof.
  intros Hin Hv.
  assert (Hprim : In (o, v) [(PRIMARY_OUTLET, OList cmds)] -> cs = cmds).
  { intros [[= <- <-]|[]]. simpl in Hv. now inversion Hv. }
  destruct cmds as [|c cmds']; [left; now apply Hprim|].
  destruct c; try (left; now apply Hprim).
  right. simpl in Hin.
  etransitivity; [eapply depth_outlet; eassumption|].
  apply cmd_depth_le_depth. now left.
Qed.

Lemma height_child (g c : UrlSegmentGroup) (o : string) :
  obj_get (children g) o = Some c -> S (height c) <= height g.
Proof.
  intros H. apply obj_get_In in H. destruct g as [segs cs]. simpl in *.
  apply (list_max_In (S (height c))). apply in_map_iff.
  exists (o, c). split; [reflexivity|exact H].
Qed.

Lemma height_hasChildren (g : UrlSegmentGroup) :
  hasChildren g = true -> 1 <= height g.
Proof.
  destruct g as [segs [|[o c] cs]]; [discriminate|].
  intros _. assert (H := height_child (Group segs ((o, c) :: cs)) c o).
  cbn [children obj_get] in H. rewrite String.eqb_refl in H.
  specialize (H eq_refl). lia.
Qed.

(** ** The recursive rewrites return or throw a [TypeError]; the fuel they
    are given is never used up *)

Lemma bind_returns {A B} (r : result A) (k : A -> result B) :
  returns_or_TypeError r ->
  (forall a, r = Ok a -> returns_or_TypeError (k a)) ->
  returns_or_TypeError (bind r k).
Proof.
  destruct r as [a|e|]; simpl; intros Hr Hk; [now apply Hk | exact Hr | exact Hr].
Qed.

Lemma forEach_outlet_returns (outlets : Outlets)
    (f : string -> list Command -> result UrlSegmentGroup) :
  (forall o v cs, In (o, v) outlets -> outlet_commands v = Some cs ->
                  returns_or_TypeError (f o cs)) ->
  forall acc, returns_or_TypeError (forEach_outlet outlets f acc).
Proof.
  induction outlets as [|[o v] outlets IH]; intros Hf acc; simpl; [exact I|].
  assert (Hrest : forall acc', returns_or_TypeError (forEach_outlet outlets f acc')).
  { apply IH. intros o' v' cs' Hin. apply Hf. now right. }
  destruct (outlet_commands v) as [cs|] eqn:Ev; [|apply Hrest].
  apply bind_returns; [apply (Hf o v cs); [now left|exact Ev]|].
  intros g _. apply Hrest.
Qed.

Lemma createNewSegmentGroup_loop_returns
    (mk : Outlets -> result (Obj UrlSegmentGroup)) (segs : list UrlSegment)
    (startIndex : Z) (n : nat) :
  forall (rest : list Command) (paths : list UrlSegment) (i : Z),
    List.length rest <= n ->
    (forall os, In (COutlets os) rest -> returns_or_TypeError (mk os)) ->
    returns_or_TypeError
      (createNewSegmentGroup_loop mk segs startIndex paths i rest).
Proof.
  induction n as [|n IH]; intros rest paths i Hlen Hmk.
  - destruct rest; [exact I|simpl in Hlen; lia].
  - destruct rest as [|command rest']; [exact I|].
    simpl in Hlen.
    assert (Hone : forall paths' i',
      returns_or_TypeError
        (createNewSegmentGroup_loop mk segs startIndex paths' i' rest')).
    { intros. apply IH; [lia|]. intros os Hos. apply Hmk. now right. }
    assert (Htwo : forall next rest'' paths' i', rest' = next :: rest'' ->
      returns_or_TypeError
        (createNewSegmentGroup_loop mk segs startIndex paths' i' rest'')).
    { intros next rest'' paths' i' ->. simpl in Hlen. apply IH; [lia|].
      intros os Hos. apply Hmk. right. now right. }
    destruct command;
      try (cbn [createNewSegmentGroup_loop];
           destruct ((i =? 0)%Z && isMatrixParams _);
           [ destruct (nth_Z segs startIndex); [apply Hone|exact I]
           | destruct rest' as [|next rest''];
             [ apply Hone
             | destruct (truthy _ && isMatrixParams next);
               [ eapply Htwo; reflexivity | apply Hone ] ] ]).
    cbn [createNewSegmentGroup_loop].
    apply bind_returns; [apply Hmk; now left|]. intros; exact I.
Qed.

Lemma createNewSegmentGroup_fuel_returns (fuel : nat) :
  forall (sg : UrlSegmentGroup) (startIndex : Z) (cmds : list Command),
    depth cmds < fuel ->
    returns_or_TypeError (createNewSegmentGroup_fuel fuel sg startIndex cmds).
Proof.
  induction fuel as [|fuel IH]; intros sg startIndex cmds Hd; [lia|].
  cbn [createNewSegmentGroup_fuel].
  apply (createNewSegmentGroup_loop_returns _ _ _ (List.length cmds)); [lia|].
  intros os Hos. apply forEach_outlet_returns.
  intros o v cs Hin Hv. apply IH.
  pose proof (depth_outlet os o v cs Hin Hv).
  pose proof (cmd_depth_le_depth _ _ Hos). lia.
Qed.

Lemma createNewSegmentGroup_returns (sg : UrlSegmentGroup) (startIndex : Z)
    (cmds : list Command) :
  returns_or_TypeError (createNewSegmentGroup sg startIndex cmds).
Proof. apply createNewSegmentGroup_fuel_returns. lia. Qed.

Lemma prefixedWith_loop_returns (segs : list UrlSegment) (n : nat) :
  forall (rest : list Command) (p k : Z),
    List.length rest <= n ->
    returns_or_TypeError (prefixedWith_loop segs p k rest).
Proof.
  induction n as [|n IH]; intros rest p k Hlen;
    destruct rest as [|command rest']; simpl in *;
    try (destruct (p <? len segs)%Z; exact I); try lia.
  destruct (p <? len segs)%Z; [|exact I].
  destruct (isCommandWithOutlets command); [exact I|].
  destruct (nth_Z segs p) as [path'|]; [|exact I].
  assert (Hone : returns_or_TypeError
            (if compare (template command) [] path'
             then prefixedWith_loop segs (p + 1) (k + 1) rest'
             else Ok noMatch)).
  { destruct (compare _ _ _); [apply IH; lia|exact I]. }
  destruct rest' as [|next rest'']; [exact Hone|].
  destruct (truthy _ && isObjectWithoutOutlets next); [|exact Hone].
  clear Hone.
  destruct (compare _ _ _); [|exact I]. apply IH. simpl in Hlen. lia.
Qed.

(** A match that stops before the end of the segments stopped at an outlets
    command. *)
Lemma prefixedWith_loop_partial (segs : list UrlSegment) (n : nat) :
  forall (rest : list Command) (p k : Z) (m : PrefixMatch),
    List.length rest <= n ->
    prefixedWith_loop segs p k rest = Ok m ->
    match_ m = true -> (pathIndex m < len segs)%Z ->
    exists j os tl,
      commandIndex m = (k + Z.of_nat j)%Z /\ skipn j rest = COutlets os :: tl.
Proof.
  induction n as [|n IH]; intros rest p k m Hlen Hm Hmatch Hshort.
  - destruct rest; [|simpl in Hlen; lia]. simpl in Hm.
    destruct (p <? len segs)%Z eqn:E; inversion Hm; subst; simpl in *;
      [discriminate|apply Z.ltb_ge in E; lia].
  - destruct rest as [|command rest']; simpl in Hm.
    + destruct (p <? len segs)%Z eqn:E; inversion Hm; subst; simpl in *;
        [discriminate|apply Z.ltb_ge in E; lia].
    + destruct (p <? len segs)%Z eqn:E;
        [|inversion Hm; subst; simpl in *; apply Z.ltb_ge in E; lia].
      destruct (isCommandWithOutlets command) eqn:Eo.
      { destruct command as [s|s|ps|os|c s]; try discriminate.
        inversion Hm; subst. exists O, os, rest'. simpl. split; [lia|reflexivity]. }
      destruct (nth_Z segs p) as [path'|]; [|discriminate].
      simpl in Hlen.
      assert (Hone :
        (if compare (template command) [] path'
         then prefixedWith_loop segs (p + 1) (k + 1) rest'
         else Ok noMatch) = Ok m ->
        exists j os tl,
          commandIndex m = (k + Z.of_nat j)%Z
          /\ skipn j (command :: rest') = COutlets os :: tl).
      { intros Hm'. destruct (compare (template command) [] path').
        - apply IH in Hm' as (j & os & tl & Hj & Hs); [|lia|assumption..].
          exists (S j), os, tl. split; [lia|exact Hs].
        - inversion Hm'; subst; discriminate. }
      destruct rest' as [|next rest'']; [now apply Hone|].
      destruct (truthy (template command) && isObjectWithoutOutlets next);
        [|now apply Hone].
      clear Hone.
      destruct (compare (template command) (entries next) path');
        [|inversion Hm; subst; discriminate].
      apply IH in Hm as (j & os & tl & Hj & Hs);
        [|simpl in Hlen; lia|assumption..].
      exists (S (S j)), os, tl. split; [lia|exact Hs].
Qed.

Lemma prefixedWith_partial (sg : UrlSegmentGroup) (startIndex : Z)
    (cmds : list Command) (m : PrefixMatch) :
  prefixedWith sg startIndex cmds = Ok m ->
  match_ m = true -> (pathIndex m < len (segments sg))%Z ->
  exists os tl, slice_from cmds (commandIndex m) = COutlets os :: tl.
Proof.
  intros Hm Hmatch Hshort.
  destruct (prefixedWith_loop_partial _ _ _ _ _ _ (le_n _) Hm Hmatch Hshort)
    as (j & os & tl & Hj & Hs).
  exists os, tl. rewrite <- Hs. unfold slice_from. f_equal.
  assert (j <= List.length cmds).
  { destruct (Nat.le_gt_cases j (List.length cmds)) as [|Hgt]; [assumption|].
    rewrite skipn_all2 in Hs by lia. discriminate. }
  unfold slice_bound, len. rewrite Hj.
  destruct (0 + Z.of_nat j <? 0)%Z eqn:E; [apply Z.ltb_lt in E; lia|]. lia.
Qed.

Lemma update_child_cases
    (f : option UrlSegmentGroup -> Z -> list Command -> result UrlSegmentGroup)
    (cs : Obj UrlSegmentGroup) (o : string) (startIndex : Z)
    (cmds : list Command) :
  update_child f cs o startIndex cmds = Throw TypeError
  \/ update_child f cs o startIndex cmds = f (obj_get cs o) startIndex cmds.
Proof.
  unfold update_child, obj_read.
  destruct (obj_get cs o); [now right|].
  destruct (inherited o); [now left|now right].
Qed.

Lemma updateSegmentGroupChildren_body_returns
    (f : option UrlSegmentGroup -> Z -> list Command -> result UrlSegmentGroup)
    (sg : UrlSegmentGroup) (startIndex : Z) (cmds : list Command) :
  (forall o v cs, In (o, v) (getOutlets cmds) -> outlet_commands v = Some cs ->
                  returns_or_TypeError (f (obj_get (children sg) o) startIndex cs)) ->
  returns_or_TypeError (updateSegmentGroupChildren_body f sg startIndex cmds).
Proof.
  intros Hf. unfold updateSegmentGroupChildren_body.
  destruct cmds as [|c cmds']; [exact I|].
  apply bind_returns; [|intros; exact I].
  apply forEach_outlet_returns. intros o v cs Hin Hv.
  destruct (update_child_cases f (children sg) o startIndex cs) as [-> | ->];
    [exact I|now apply (Hf o v)].
Qed.

Lemma height_children (a b : UrlSegmentGroup) :
  children a = children b -> height a = height b.
Proof. destruct a, b. simpl. now intros ->. Qed.

Lemma updateSegmentGroup_fuel_returns (fuel : nat) :
  forall (sg : option UrlSegmentGroup) (startIndex : Z) (cmds : list Command),
    depth cmds + height_opt sg < fuel ->
    returns_or_TypeError (updateSegmentGroup_fuel fuel sg startIndex cmds).
Proof.
  induction fuel as [|fuel IH]; intros sg startIndex cmds Hfuel; [lia|].
  cbn [updateSegmentGroup_fuel]. unfold updateSegmentGroup_body.
  set (sg0 := match sg with Some g => g | None => Group [] [] end).
  assert (Hh : height sg0 = height_opt sg) by (destruct sg; reflexivity).
  (* outlet-children processing of a group that has children *)
  assert (Hchildren : forall i cmds',
            hasChildren sg0 = true -> depth cmds' <= depth cmds ->
            returns_or_TypeError
              (updateSegmentGroupChildren_body (updateSegmentGroup_fuel fuel)
                 sg0 i cmds')).
  { intros i cmds' Hc Hd. apply updateSegmentGroupChildren_body_returns.
    intros o v cs Hin Hv. apply IH.
    apply height_hasChildren in Hc.
    assert (Hchild : height_opt (obj_get (children sg0) o) < height sg0).
    { destruct (obj_get (children sg0) o) as [c|] eqn:Ec; simpl; [|lia].
      apply height_child in Ec. lia. }
    destruct (getOutlets_depth _ _ _ _ Hin Hv) as [->|Hlt]; lia. }
  destruct ((len (segments sg0) =? 0)%Z && hasChildren sg0) eqn:Edel.
  { apply andb_prop in Edel as [_ Hc]. now apply Hchildren. }
  apply bind_returns;
    [apply (prefixedWith_loop_returns _ (List.length cmds)); lia|].
  intros m Hm.
  pose proof (depth_slice_from cmds (commandIndex m)) as Hslice.
  destruct (match_ m) eqn:Ematch; cbn [andb];
    [|apply createNewSegmentGroup_returns].
  destruct (pathIndex m <? len (segments sg0))%Z eqn:Eshort.
  { apply Z.ltb_lt in Eshort.
    destruct (prefixedWith_partial _ _ _ _ Hm Ematch Eshort) as (os & tl & Hs).
    apply updateSegmentGroupChildren_body_returns.
    rewrite Hs in *. cbn [getOutlets].
    intros o v cs Hin Hv. apply IH.
    pose proof (depth_outlet os o v cs Hin Hv) as Hd.
    pose proof (cmd_depth_le_depth (COutlets os) (COutlets os :: tl)
                  (or_introl eq_refl)) as Hd'.
    assert (Hchild : height_opt
              (obj_get (children
                 (Group (slice_to (segments sg0) (pathIndex m))
                    [(PRIMARY_OUTLET,
                      Group (slice_from (segments sg0) (pathIndex m))
                            (children sg0))])) o) <= height sg0).
    { cbn [children obj_get].
      destruct (String.eqb PRIMARY_OUTLET o); simpl; [|lia].
      destruct sg0; simpl. lia. }
    lia. }
  destruct (len (slice_from cmds (commandIndex m)) =? 0)%Z; [exact I|].
  destruct (hasChildren sg0) eqn:Ec; cbn [negb];
    [|apply createNewSegmentGroup_returns].
  now apply Hchildren.
Qed.

Lemma updateSegmentGroup_returns (sg : option UrlSegmentGroup) (startIndex : Z)
    (cmds : list Command) :
  returns_or_TypeError (updateSegmentGroup sg startIndex cmds).
Proof. apply updateSegmentGroup_fuel_returns. lia. Qed.

Lemma updateSegmentGroupChildren_returns (sg : UrlSegmentGroup) (startIndex : Z)
    (cmds : list Command) :
  returns_or_TypeError (updateSegmentGroupChildren sg startIndex cmds).
Proof.
  apply updateSegmentGroupChildren_body_returns.
  intros o v cs Hin Hv. apply updateSegmentGroup_fuel_returns.
  assert (Hchild : height_opt (obj_get (children sg) o) <= height sg).
  { destruct (obj_get (children sg) o) as [c|] eqn:Ec; simpl; [|lia].
    apply height_child in Ec. lia. }
  destruct (getOutlets_depth _ _ _ _ Hin Hv) as [->|Hlt]; lia.
Qed.

Lemma height_opt_child (sg : UrlSegmentGroup) (o : string) :
  height_opt (obj_get (children sg) o) <= height sg.
Proof.
  destruct (obj_get (children sg) o) as [c|] eqn:Ec; simpl; [|lia].
  apply height_child in Ec. lia.
Qed.

Lemma enough_fuel_top (fuel : nat) (sg : UrlSegmentGroup)
    (cmds : list Command) :
  depth cmds + height sg < fuel -> enough_fuel fuel sg cmds.
Proof.
  intros Hfuel o v cs Hin Hv. pose proof (height_opt_child sg o).
  destruct (getOutlets_depth _ _ _ _ Hin Hv) as [->|Hlt]; lia.
Qed.

Lemma enough_fuel_children (fuel : nat) (sg : UrlSegmentGroup)
    (cmds : list Command) :
  hasChildren sg = true -> depth cmds + height sg <= fuel ->
  enough_fuel fuel sg cmds.
Proof.
  intros Hc Hfuel o v cs Hin Hv. apply height_hasChildren in Hc.
  assert (Hchild : height_opt (obj_get (children sg) o) < height sg).
  { destruct (obj_get (children sg) o) as [c|] eqn:Ec; simpl; [|lia].
    apply height_child in Ec. lia. }
  destruct (getOutlets_depth _ _ _ _ Hin Hv) as [->|Hlt]; lia.
Qed.

Lemma enough_fuel_split (fuel : nat) (sg0 g : UrlSegmentGroup)
    (pre post : list UrlSegment) (slice : list Command) (os : Outlets)
    (tl : list Command) :
  slice = COutlets os :: tl -> depth slice + height sg0 <= fuel ->
  g = Group pre [(PRIMARY_OUTLET, Group post (children sg0))] ->
  enough_fuel fuel g slice.
Proof.
  intros -> Hfuel -> o v cs Hin Hv. cbn [getOutlets] in Hin.
  pose proof (depth_outlet os o v cs Hin Hv) as Hd.
  pose proof (cmd_depth_le_depth (COutlets os) (COutlets os :: tl)
                (or_introl eq_refl)) as Hd'.
  cbn [children obj_get].
  destruct (String.eqb PRIMARY_OUTLET o); simpl; [|lia].
  destruct sg0; simpl in *. lia.
Qed.

(** ** The fuel is only a device: with enough of it the outcome does not
    depend on it, and the two rewrites satisfy the recursive equations of the
    source *)

Lemma refines_refl {A} (r : result A) : refines r r.
Proof. now right. Qed.

Lemma bind_refines {A B} (r1 r2 : result A) (k1 k2 : A -> result B) :
  refines r1 r2 -> (forall a, refines (k1 a) (k2 a)) ->
  refines (bind r1 k1) (bind r2 k2).
Proof.
  intros [->| ->] Hk; [now left|].
  destruct r2; simpl; [apply Hk|now right|now right].
Qed.

Lemma forEach_outlet_refines (outlets : Outlets)
    (f1 f2 : string -> list Command -> result UrlSegmentGroup) :
  (forall o cs, refines (f1 o cs) (f2 o cs)) ->
  forall acc, refines (forEach_outlet outlets f1 acc)
                      (forEach_outlet outlets f2 acc).
Proof.
  intros Hf. induction outlets as [|[o v] outlets IH]; intros acc; simpl.
  - apply refines_refl.
  - destruct (outlet_commands v); [|apply IH].
    apply bind_refines; [apply Hf|]. intros g. apply IH.
Qed.

Lemma forEach_outlet_ext (outlets : Outlets)
    (f1 f2 : string -> list Command -> result UrlSegmentGroup) :
  (forall o v cs, In (o, v) outlets -> outlet_commands v = Some cs ->
                  f1 o cs = f2 o cs) ->
  forall acc, forEach_outlet outlets f1 acc = forEach_outlet outlets f2 acc.
Proof.
  induction outlets as [|[o v] outlets IH]; intros Hf acc; simpl.
  - reflexivity.
  - assert (Hrest : forall acc', forEach_outlet outlets f1 acc'
                                 = forEach_outlet outlets f2 acc').
    { apply IH. intros o' v' cs' Hin. apply Hf. now right. }
    destruct (outlet_commands v) as [cs|] eqn:Ev; [|apply Hrest].
    rewrite (Hf o v cs (or_introl eq_refl) Ev).
    destruct (f2 o cs); simpl; [apply Hrest|reflexivity..].
Qed.

Lemma createNewSegmentGroup_loop_refines
    (mk1 mk2 : Outlets -> result (Obj UrlSegmentGroup))
    (segs : list UrlSegment) (startIndex : Z) (n : nat) :
  (forall os, refines (mk1 os) (mk2 os)) ->
  forall (rest : list Command) (paths : list UrlSegment) (i : Z),
    List.length rest <= n ->
    refines (createNewSegmentGroup_loop mk1 segs startIndex paths i rest)
            (createNewSegmentGroup_loop mk2 segs startIndex paths i rest).
Proof.
  intros Hmk. induction n as [|n IH]; intros rest paths i Hlen.
  - destruct rest; [apply refines_refl|simpl in Hlen; lia].
  - destruct rest as [|command rest']; [apply refines_refl|].
    simpl in Hlen.
    assert (Hone : forall paths' i',
      refines (createNewSegmentGroup_loop mk1 segs startIndex paths' i' rest')
              (createNewSegmentGroup_loop mk2 segs startIndex paths' i' rest'))
      by (intros; apply IH; lia).
    assert (Htwo : forall next rest'' paths' i', rest' = next :: rest'' ->
      refines (createNewSegmentGroup_loop mk1 segs startIndex paths' i' rest'')
              (createNewSegmentGroup_loop mk2 segs startIndex paths' i' rest''))
      by (intros next rest'' paths' i' ->; simpl in Hlen; apply IH; lia).
    destruct command;
      try (cbn [createNewSegmentGroup_loop];
           destruct ((i =? 0)%Z && isMatrixParams _);
           [ destruct (nth_Z segs startIndex); [apply Hone|apply refines_refl]
           | destruct rest' as [|next rest''];
             [ apply Hone
             | destruct (truthy _ && isMatrixParams next);
               [ eapply Htwo; reflexivity | apply Hone ] ] ]).
    cbn [createNewSegmentGroup_loop].
    apply bind_refines; [apply Hmk|]. intros; apply refines_refl.
Qed.

Lemma createNewSegmentGroup_loop_ext
    (mk1 mk2 : Outlets -> result (Obj UrlSegmentGroup))
    (segs : list UrlSegment) (startIndex : Z) (n : nat) :
  forall (rest : list Command) (paths : list UrlSegment) (i : Z),
    List.length rest <= n ->
    (forall os, In (COutlets os) rest -> mk1 os = mk2 os) ->
    createNewSegmentGroup_loop mk1 segs startIndex paths i rest
    = createNewSegmentGroup_loop mk2 segs startIndex paths i rest.
Proof.
  induction n as [|n IH]; intros rest paths i Hlen Hmk.
  - destruct rest; [reflexivity|simpl in Hlen; lia].
  - destruct rest as [|command rest']; [reflexivity|].
    simpl in Hlen.
    assert (Hone : forall paths' i',
      createNewSegmentGroup_loop mk1 segs startIndex paths' i' rest'
      = createNewSegmentGroup_loop mk2 segs startIndex paths' i' rest').
    { intros. apply IH; [lia|]. intros os Hos. apply Hmk. now right. }
    assert (Htwo : forall next rest'' paths' i', rest' = next :: rest'' ->
      createNewSegmentGroup_loop mk1 segs startIndex paths' i' rest''
      = createNewSegmentGroup_loop mk2 segs startIndex paths' i' rest'').
    { intros next rest'' paths' i' ->. simpl in Hlen. apply IH; [lia|].
      intros os Hos. apply Hmk. right. now right. }
    destruct command;
      try (cbn [createNewSegmentGroup_loop];
           destruct ((i =? 0)%Z && isMatrixParams _);
           [ destruct (nth_Z segs startIndex); [apply Hone|reflexivity]
           | destruct rest' as [|next rest''];
             [ apply Hone
             | destruct (truthy _ && isMatrixParams next);
               [ eapply Htwo; reflexivity | apply Hone ] ] ]).
    cbn [createNewSegmentGroup_loop].
    now rewrite (Hmk os (or_introl eq_refl)).
Qed.

Lemma createNewSegmentGroup_fuel_S (fuel : nat) :
  forall (sg : UrlSegmentGroup) (startIndex : Z) (cmds : list Command),
    refines (createNewSegmentGroup_fuel fuel sg startIndex cmds)
            (createNewSegmentGroup_fuel (S fuel) sg startIndex cmds).
Proof.
  induction fuel as [|fuel IH]; intros sg startIndex cmds; [now left|].
  cbn [createNewSegmentGroup_fuel].
  apply (createNewSegmentGroup_loop_refines _ _ _ _ (List.length cmds)); [|lia].
  intros os. apply forEach_outlet_refines. intros o cs. apply IH.
Qed.

Lemma createNewSegmentGroup_fuel_stable (fuel : nat) (sg : UrlSegmentGroup)
    (startIndex : Z) (cmds : list Command) :
  depth cmds < fuel ->
  createNewSegmentGroup_fuel fuel sg startIndex cmds
  = createNewSegmentGroup sg startIndex cmds.
Proof.
  unfold createNewSegmentGroup. intros Hfuel.
  induction Hfuel as [|fuel Hle IH]; [reflexivity|].
  destruct (createNewSegmentGroup_fuel_S fuel sg startIndex cmds) as [H|H].
  - pose proof (createNewSegmentGroup_fuel_returns fuel sg startIndex cmds
                  ltac:(lia)) as Hr.
    rewrite H in Hr. destruct Hr.
  - now rewrite <- H.
Qed.

(** [createNewSegmentGroup] and [createNewSegmentChildren] as the source
    defines them, each in terms of the other. *)
Lemma createNewSegmentGroup_eq (sg : UrlSegmentGroup) (startIndex : Z)
    (cmds : list Command) :
  createNewSegmentGroup sg startIndex cmds
  = createNewSegmentGroup_loop createNewSegmentChildren (segments sg)
      startIndex (slice_to (segments sg) startIndex) 0 cmds.
Proof.
  unfold createNewSegmentGroup at 1. cbn [createNewSegmentGroup_fuel].
  apply (createNewSegmentGroup_loop_ext _ _ _ _ (List.length cmds)); [lia|].
  intros os Hos. unfold createNewSegmentChildren.
  apply forEach_outlet_ext. intros o v cs Hin Hv.
  apply createNewSegmentGroup_fuel_stable.
  pose proof (depth_outlet os o v cs Hin Hv).
  pose proof (cmd_depth_le_depth _ _ Hos). lia.
Qed.

Lemma update_child_refines
    (f1 f2 : option UrlSegmentGroup -> Z -> list Command
             -> result UrlSegmentGroup)
    (cs : Obj UrlSegmentGroup) (o : string) (startIndex : Z)
    (cmds : list Command) :
  (forall g i c, refines (f1 g i c) (f2 g i c)) ->
  refines (update_child f1 cs o startIndex cmds)
          (update_child f2 cs o startIndex cmds).
Proof.
  intros Hf. unfold update_child.
  destruct (obj_read cs o); [apply Hf|apply refines_refl|apply Hf].
Qed.

Lemma update_child_ext
    (f1 f2 : option UrlSegmentGroup -> Z -> list Command
             -> result UrlSegmentGroup)
    (cs : Obj UrlSegmentGroup) (o : string) (startIndex : Z)
    (cmds : list Command) :
  f1 (obj_get cs o) startIndex cmds = f2 (obj_get cs o) startIndex cmds ->
  update_child f1 cs o startIndex cmds = update_child f2 cs o startIndex cmds.
Proof.
  unfold update_child, obj_read. destruct (obj_get cs o); [auto|].
  destruct (inherited o); auto.
Qed.

Lemma updateSegmentGroupChildren_body_refines
    (f1 f2 : option UrlSegmentGroup -> Z -> list Command
             -> result UrlSegmentGroup)
    (sg : UrlSegmentGroup) (startIndex : Z) (cmds : list Command) :
  (forall g i c, refines (f1 g i c) (f2 g i c)) ->
  refines (updateSegmentGroupChildren_body f1 sg startIndex cmds)
          (updateSegmentGroupChildren_body f2 sg startIndex cmds).
Proof.
  intros Hf. unfold updateSegmentGroupChildren_body.
  destruct cmds; [apply refines_refl|].
  apply bind_refines; [|intros; apply refines_refl].
  apply forEach_outlet_refines. intros o cs.
  now apply update_child_refines.
Qed.

Lemma updateSegmentGroup_body_refines
    (h1 h2 : UrlSegmentGroup -> Z -> list Command -> result UrlSegmentGroup)
    (sg : option UrlSegmentGroup) (startIndex : Z) (cmds : list Command) :
  (forall g i c, refines (h1 g i c) (h2 g i c)) ->
  refines (updateSegmentGroup_body h1 sg startIndex cmds)
          (updateSegmentGroup_body h2 sg startIndex cmds).
Proof.
  intros Hh. unfold updateSegmentGroup_body. cbv zeta.
  destruct (_ && hasChildren _); [apply Hh|].
  apply bind_refines; [apply refines_refl|]. intros m.
  destruct (match_ m && _); [apply Hh|].
  destruct (match_ m && _); [apply refines_refl|].
  destruct (match_ m && _); [apply refines_refl|].
  destruct (match_ m); [apply Hh|apply refines_refl].
Qed.

Lemma updateSegmentGroup_fuel_S (fuel : nat) :
  forall (sg : option UrlSegmentGroup) (startIndex : Z) (cmds : list Command),
    refines (updateSegmentGroup_fuel fuel sg startIndex cmds)
            (updateSegmentGroup_fuel (S fuel) sg startIndex cmds).
Proof.
  induction fuel as [|fuel IH]; intros sg startIndex cmds; [now left|].
  cbn [updateSegmentGroup_fuel].
  apply updateSegmentGroup_body_refines. intros g i c.
  apply updateSegmentGroupChildren_body_refines. apply IH.
Qed.

Lemma updateSegmentGroup_fuel_stable (fuel : nat)
    (sg : option UrlSegmentGroup) (startIndex : Z) (cmds : list Command) :
  depth cmds + height_opt sg < fuel ->
  updateSegmentGroup_fuel fuel sg startIndex cmds
  = updateSegmentGroup sg startIndex cmds.
Proof.
  unfold updateSegmentGroup. intros Hfuel.
  induction Hfuel as [|fuel Hle IH]; [reflexivity|].
  destruct (updateSegmentGroup_fuel_S fuel sg startIndex cmds) as [H|H].
  - pose proof (updateSegmentGroup_fuel_returns fuel sg startIndex cmds
                  ltac:(lia)) as Hr.
    rewrite H in Hr. destruct Hr.
  - now rewrite <- H.
Qed.

Lemma updateSegmentGroupChildren_body_stable (fuel : nat)
    (sg : UrlSegmentGroup) (startIndex : Z) (cmds : list Command) :
  enough_fuel fuel sg cmds ->
  updateSegmentGroupChildren_body (updateSegmentGroup_fuel fuel) sg startIndex
                                  cmds
  = updateSegmentGroupChildren_body updateSegmentGroup sg startIndex cmds.
Proof.
  intros Hfuel. unfold updateSegmentGroupChildren_body.
  destruct cmds as [|c cmds']; [reflexivity|].
  cbv zeta. f_equal. apply forEach_outlet_ext.
  intros o v cs Hin Hv. apply update_child_ext.
  apply updateSegmentGroup_fuel_stable.
  eapply Hfuel; eassumption.
Qed.

(** [updateSegmentGroupChildren] and [updateSegmentGroup] as the source
    defines them, each in terms of the other. *)
Lemma updateSegmentGroupChildren_eq (sg : UrlSegmentGroup) (startIndex : Z)
    (cmds : list Command) :
  updateSegmentGroupChildren sg startIndex cmds
  = updateSegmentGroupChildren_body updateSegmentGroup sg startIndex cmds.
Proof.
  apply updateSegmentGroupChildren_body_stable, enough_fuel_top. lia.
Qed.

Lemma updateSegmentGroup_eq (sg : option UrlSegmentGroup) (startIndex : Z)
    (cmds : list Command) :
  updateSegmentGroup sg startIndex cmds
  = updateSegmentGroup_body updateSegmentGroupChildren sg startIndex cmds.
Proof.
  unfold updateSegmentGroup at 1. cbn [updateSegmentGroup_fuel].
  unfold updateSegmentGroup_body.
  set (sg0 := match sg with Some g => g | None => Group [] [] end).
  assert (Hh : height sg0 = height_opt sg) by (destruct sg; reflexivity).
  cbv zeta.
  destruct ((len (segments sg0) =? 0)%Z && hasChildren sg0) eqn:Edel.
  { apply andb_prop in Edel as [_ Hc].
    rewrite updateSegmentGroupChildren_eq.
    apply updateSegmentGroupChildren_body_stable, enough_fuel_children;
      [exact Hc|lia]. }
  destruct (prefixedWith sg0 startIndex cmds) as [m| |] eqn:Hm;
    cbn [bind]; [|reflexivity..].
  pose proof (depth_slice_from cmds (commandIndex m)) as Hslice.
  destruct (match_ m) eqn:Ematch; cbn [andb]; [|reflexivity].
  destruct (pathIndex m <? len (segments sg0))%Z eqn:Eshort.
  { apply Z.ltb_lt in Eshort.
    destruct (prefixedWith_partial _ _ _ _ Hm Ematch Eshort) as (os & tl & Hs).
    rewrite updateSegmentGroupChildren_eq.
    apply updateSegmentGroupChildren_body_stable.
    eapply enough_fuel_split; [exact Hs| |reflexivity]. lia. }
  destruct (len (slice_from cmds (commandIndex m)) =? 0)%Z; [reflexivity|].
  destruct (hasChildren sg0) eqn:Ec; cbn [negb]; [|reflexivity].
  rewrite updateSegmentGroupChildren_eq.
  apply updateSegmentGroupChildren_body_stable, enough_fuel_children;
    [exact Ec|lia].
Qed.

(** ** Double-dot consumption *)

Lemma levels_above_nonneg (g : GroupRef) : (0 <= levels_above g)%Z.
Proof.
  unfold levels_above. induction (above g) as [|f up IH]; simpl; [lia|].
  pose proof (len_nonneg (fr_segments f)). lia.
Qed.

Lemma applyDoubleDots_follows_spec (up : list Frame) :
  forall (g : UrlSegmentGroup) (ci dd : Z),
    doubleDotConsumption (mkRef g up) ci dd (applyDoubleDots g up ci dd).
Proof.
  induction up as [|f up IH]; intros g ci dd; simpl;
    destruct (dd >? ci)%Z eqn:E.
  - apply ddc_no_parent; [apply Z.gtb_lt in E; lia|reflexivity].
  - apply ddc_terminate. rewrite Z.gtb_ltb in E. apply Z.ltb_ge in E. lia.
  - eapply ddc_move_up; [apply Z.gtb_lt in E; lia|reflexivity|]. apply IH.
  - apply ddc_terminate. rewrite Z.gtb_ltb in E. apply Z.ltb_ge in E. lia.
Qed.

Lemma doubleDotConsumption_functional (g : GroupRef) (ci dd : Z)
    (r : result Position) :
  doubleDotConsumption g ci dd r ->
  r = createPositionApplyingDoubleDots g ci dd.
Proof.
  unfold createPositionApplyingDoubleDots.
  induction 1 as [g ci dd Hle|g ci dd Hgt Hp|g p ci dd r Hgt Hp _ IH].
  - destruct g as [g up]. simpl.
    destruct up; simpl; destruct (dd >? ci)%Z eqn:E; try reflexivity;
      apply Z.gtb_lt in E; lia.
  - destruct g as [g [|f up]]; [|discriminate]. simpl.
    destruct (dd >? ci)%Z eqn:E; [reflexivity|].
    rewrite Z.gtb_ltb in E. apply Z.ltb_ge in E. lia.
  - destruct g as [g [|f up]]; [discriminate|].
    unfold parent in Hp. simpl in Hp. inversion Hp; subst p. simpl in *.
    destruct (dd >? ci)%Z eqn:E; [exact IH|].
    rewrite Z.gtb_ltb in E. apply Z.ltb_ge in E. lia.
Qed.

Lemma applyDoubleDots_raises (up : list Frame) :
  forall (g : UrlSegmentGroup) (ci dd : Z),
    applyDoubleDots g up ci dd = Throw (RuntimeError INVALID_DOUBLE_DOTS)
    <-> (dd > ci + levels_above (mkRef g up))%Z.
Proof.
  unfold levels_above.
  induction up as [|f up IH]; intros g ci dd; simpl;
    destruct (dd >? ci)%Z eqn:E.
  - apply Z.gtb_lt in E. split; [lia|reflexivity].
  - rewrite Z.gtb_ltb in E. apply Z.ltb_ge in E. split; [discriminate|lia].
  - rewrite IH. simpl. lia.
  - rewrite Z.gtb_ltb in E. apply Z.ltb_ge in E.
    pose proof (levels_above_nonneg (mkRef g up)) as Hn.
    unfold levels_above in Hn. simpl in Hn.
    pose proof (len_nonneg (fr_segments f)).
    split; [discriminate|lia].
Qed.

Lemma applyDoubleDots_exact (up : list Frame) :
  forall (g : UrlSegmentGroup) (ci dd : Z),
    dd = (ci + levels_above (mkRef g up))%Z ->
    exists a, applyDoubleDots g up ci dd = Ok (mkPosition a false 0).
Proof.
  unfold levels_above.
  induction up as [|f up IH]; intros g ci dd Hdd; simpl in *;
    destruct (dd >? ci)%Z eqn:E.
  - apply Z.gtb_lt in E. lia.
  - eexists. do 2 f_equal. lia.
  - apply IH. lia.
  - rewrite Z.gtb_ltb in E. apply Z.ltb_ge in E.
    pose proof (levels_above_nonneg (mkRef g up)) as Hn.
    unfold levels_above in Hn. simpl in Hn.
    pose proof (len_nonneg (fr_segments f)).
    eexists. do 2 f_equal. lia.
Qed.

(** C3.  [createPositionApplyingDoubleDots] is the double-dot consumption of
    the specification: its result is the one the rule "while [dd > ci]: subtract
    [ci] from [dd], move to the parent, reset [ci] to the parent's number of
    segments; end with [Position(g, false, ci - dd)]" determines, and no other;
    it raises [INVALID_DOUBLE_DOTS] if and only if the budget exceeds the local
    index plus the segments of all ancestors, and a budget that equals this
    depth succeeds, at index 0. *)
Theorem C3_double_dot_consumption (g : GroupRef) (ci dd : Z) :
  doubleDotConsumption g ci dd (createPositionApplyingDoubleDots g ci dd)
  /\ (forall r, doubleDotConsumption g ci dd r ->
                r = createPositionApplyingDoubleDots g ci dd)
  /\ (createPositionApplyingDoubleDots g ci dd = Throw (RuntimeError INVALID_DOUBLE_DOTS)
      <-> (dd > ci + levels_above g)%Z)
  /\ (dd = (ci + levels_above g)%Z ->
      exists a, createPositionApplyingDoubleDots g ci dd
                = Ok (mkPosition a false 0)).
Proof.
  destruct g as [g up]. unfold createPositionApplyingDoubleDots. simpl.
  split; [apply applyDoubleDots_follows_spec|].
  split; [intros r Hr; now apply doubleDotConsumption_functional in Hr|].
  split; [apply applyDoubleDots_raises|apply applyDoubleDots_exact].
Qed.

(** ** Navigation normalizer *)

Lemma computeNavigation_normalized (cmds : list Command) :
  computeNavigation cmds
  = new_Navigation (st_isAbsolute (normalized cmds))
                   (st_numberOfDoubleDots (normalized cmds))
                   (st_res (normalized cmds)).
Proof.
  unfold computeNavigation, normalized.
  destruct (is_root_marker cmds); reflexivity.
Qed.

Lemma find_index_misplaced {A} (p : A -> bool) (l : list A) :
  existsb p (removelast l) = true ->
  exists i, find_index p l = Some i /\ S i < List.length l.
Proof.
  induction l as [|x l IH]; [discriminate|].
  destruct l as [|y l]; [discriminate|].
  change (removelast (x :: y :: l)) with (x :: removelast (y :: l)).
  remember (y :: l) as l' eqn:El'.
  simpl. destruct (p x) eqn:Ex.
  - intros _. exists O. split; [reflexivity|subst l'; simpl; lia].
  - simpl. intros H. destruct (IH H) as (i & Hi & Hlt).
    exists (S i). rewrite Hi. split; [reflexivity|lia].
Qed.

Lemma new_Navigation_misplaced (abs : bool) (dd : Z) (cmds : list Command) :
  has_misplaced_outlets cmds = true ->
  new_Navigation abs dd cmds
  = if root_with_matrix_params (mkNavState cmds abs dd)
    then Throw (RuntimeError ROOT_SEGMENT_MATRIX_PARAMS)
    else Throw (RuntimeError MISPLACED_OUTLETS_COMMAND).
Proof.
  intros H. apply find_index_misplaced in H as (i & Hi & Hlt).
  unfold new_Navigation, root_with_matrix_params. cbn [st_isAbsolute st_res].
  assert (Hne : negb (Nat.eqb (List.length cmds) 0) = true).
  { destruct cmds; [simpl in Hlt; lia|reflexivity]. }
  rewrite Hne, andb_true_r.
  destruct (abs && match cmds with c :: _ => isMatrixParams c | [] => false end);
    [reflexivity|].
  rewrite Hi.
  assert (Hneq : Nat.eqb (S i) (List.length cmds) = false)
    by (apply Nat.eqb_neq; lia).
  now rewrite Hneq.
Qed.

(** C8, as stated, fails: the absolute commands
    [['/', {a: '1'}, {outlets: {x: 'y'}}, 'b']] normalize to a list whose
    outlets command is not the last one, and the construction raises
    [ROOT_SEGMENT_MATRIX_PARAMS], which the constructor of [Navigation] tests
    first, not [MISPLACED_OUTLETS_COMMAND]. *)
Lemma C8_root_matrix_params_raised_first :
  has_misplaced_outlets
    (st_res (normalized [CStr "/"; CParams [("a", "1")];
                         COutlets [("x", OStr "y")]; CStr "b"])) = true
  /\ computeNavigation [CStr "/"; CParams [("a", "1")];
                        COutlets [("x", OStr "y")]; CStr "b"]
     = Throw (RuntimeError ROOT_SEGMENT_MATRIX_PARAMS).
Proof. split; reflexivity. Qed.

(** C8, amended.  When the normalized command list holds an outlets command at
    a position other than the last, the construction of the navigation raises
    an error and no tree is returned: [MISPLACED_OUTLETS_COMMAND], unless the
    navigation is absolute and its first normalized command is a
    matrix-parameter object, in which case [ROOT_SEGMENT_MATRIX_PARAMS] is
    raised first.  The commands [['a', {outlets: {x: 'y'}}, 'b']] raise
    [MISPLACED_OUTLETS_COMMAND]. *)
Theorem C8_misplaced_outlets_command (cmds : list Command)
    (relativeTo : GroupRef) (queryParams : option (Obj QueryValue))
    (fragment : option string) :
  has_misplaced_outlets (st_res (normalized cmds)) = true ->
  let error :=
    if root_with_matrix_params (normalized cmds)
    then ROOT_SEGMENT_MATRIX_PARAMS else MISPLACED_OUTLETS_COMMAND in
  computeNavigation cmds = Throw (RuntimeError error)
  /\ createUrlTreeFromSegmentGroup relativeTo cmds queryParams fragment
     = Throw (RuntimeError error)
  /\ computeNavigation [CStr "a"; COutlets [("x", OStr "y")]; CStr "b"]
     = Throw (RuntimeError MISPLACED_OUTLETS_COMMAND).
Proof.
  intros H error.
  assert (Hnav : computeNavigation cmds = Throw (RuntimeError error)).
  { rewrite computeNavigation_normalized, new_Navigation_misplaced by exact H.
    subst error. destruct (normalized cmds) as [res abs dd].
    unfold root_with_matrix_params. cbn [st_isAbsolute st_res].
    destruct (abs && _); reflexivity. }
  split; [exact Hnav|]. split; [|reflexivity].
  unfold createUrlTreeFromSegmentGroup.
  destruct cmds as [|c cmds']; [discriminate|].
  now rewrite Hnav.
Qed.

Lemma C8_misplaced_outlets_command_witness :
  computeNavigation [CStr "a"; COutlets [("x", OStr "y")]; CStr "b"]
  = Throw (RuntimeError MISPLACED_OUTLETS_COMMAND)
  /\ createUrlTreeFromSegmentGroup (mkRef (Group [] []) [])
       [CStr "a"; COutlets [("x", OStr "y")]; CStr "b"] None None
     = Throw (RuntimeError MISPLACED_OUTLETS_COMMAND).
Proof.
  pose proof (C8_misplaced_outlets_command
                [CStr "a"; COutlets [("x", OStr "y")]; CStr "b"]
                (mkRef (Group [] []) []) None None eq_refl) as H.
  split; [exact (proj1 H)|exact (proj1 (proj2 H))].
Defined.

Lemma split_parts_classes (parts : list string) :
  forall (st : NavState) (partIndex : nat),
    split_parts st parts partIndex
    = mkNavState
        (st_res st ++ appended (classes partIndex parts))
        (st_isAbsolute st || existsb sets_absolute (classes partIndex parts))
        (st_numberOfDoubleDots st
         + Z.of_nat (List.length (filter is_double_dot (classes partIndex parts)))).
Proof.
  induction parts as [|urlPart parts IH]; intros [res abs dd] partIndex.
  - simpl. now rewrite app_nil_r, orb_false_r, Z.add_0_r.
  - cbn [split_parts classes]. rewrite IH. unfold split_part, classify.
    destruct (String.eqb urlPart "") eqn:Eempty.
    + apply String.eqb_eq in Eempty. subst urlPart.
      destruct (Nat.eqb partIndex 0); simpl;
        rewrite ?orb_true_r, ?Z.add_0_r; reflexivity.
    + destruct (String.eqb urlPart ".") eqn:Edot.
      * apply String.eqb_eq in Edot. subst urlPart.
        destruct (Nat.eqb partIndex 0); simpl; [reflexivity|].
        now rewrite <- app_assoc.
      * destruct (Nat.eqb partIndex 0); simpl;
          destruct (String.eqb urlPart ".."); simpl;
          rewrite <- ?app_assoc; f_equal; lia.
Qed.

Lemma reduce_passed_through (cmds : list Command) :
  forall (st : NavState) (cmdIdx : nat),
    reduce st cmds (S cmdIdx)
    = mkNavState (st_res st ++ map passed_through cmds) (st_isAbsolute st)
                 (st_numberOfDoubleDots st).
Proof.
  induction cmds as [|cmd cmds IH]; intros [res abs dd] cmdIdx.
  - simpl. now rewrite app_nil_r.
  - cbn [reduce map]. rewrite IH.
    destruct cmd; simpl; now rewrite <- app_assoc.
Qed.

Lemma reduce_spec_normalized (cmds : list Command) :
  reduce (mkNavState [] false 0) cmds 0 = spec_normalized cmds.
Proof.
  destruct cmds as [|cmd cmds]; [reflexivity|].
  cbn [reduce]. rewrite reduce_passed_through.
  destruct cmd; try reflexivity.
  cbn [reduce_step Nat.eqb spec_normalized]. rewrite split_parts_classes.
  reflexivity.
Qed.

(** C6, as stated, fails: an object whose [segmentPath] is the empty string
    is not replaced by its path string.  [if (cmd.segmentPath)] does not hold
    for it; it stays in the command list as the object it is, which the code
    then takes for matrix parameters.  An object with a non-empty
    [segmentPath] is replaced, unsplit. *)
Lemma C6_empty_segmentPath_not_replaced :
  computeNavigation [CStr "a"; segmentPath_object ""]
  = Ok (mkNavigation false 0 [CStr "a"; segmentPath_object ""])
  /\ computeNavigation [CStr "a"; segmentPath_object ""]
     <> Ok (mkNavigation false 0 [CStr "a"; CStr ""])
  /\ isMatrixParams (segmentPath_object "") = true
  /\ computeNavigation [CStr "a"; segmentPath_object "b/c"]
     = Ok (mkNavigation false 0 [CStr "a"; CStr "b/c"]).
Proof. repeat split; try reflexivity. discriminate. Qed.

(** C6, amended.  Normalization splits only the first token, when it is a
    string, on [/] and classifies each sub-token: the empty string at position
    0 sets [isAbsolute]; [.] at position 0 is ignored; [..] increments
    [numberOfDoubleDots]; any other non-empty sub-token is appended to the
    output commands.  The other tokens are passed through, an outlets-object
    with its string values split into lists and a segmentPath-object replaced
    by its path string when that string is not empty; an object whose
    [segmentPath] is the empty string is passed through as it is.  The single
    string ['/'], the special case that the specification puts before this
    rule, is kept as the one command of an absolute navigation. *)
Theorem C6_command_normalization (cmds : list Command) :
  reduce (mkNavState [] false 0) cmds 0 = spec_normalized cmds
  /\ computeNavigation cmds
     = (if is_root_marker cmds then new_Navigation true 0 [CStr "/"]
        else new_Navigation (st_isAbsolute (spec_normalized cmds))
                            (st_numberOfDoubleDots (spec_normalized cmds))
                            (st_res (spec_normalized cmds)))
  /\ (forall p : string,
        passed_through (segmentPath_object p)
        = if String.eqb p "" then segmentPath_object p else CStr p)
  /\ (forall os : Outlets,
        passed_through (COutlets os) = COutlets (obj_map normalize_outlet os))
  /\ (forall s : string,
        passed_through (CStr s) = CStr s /\ passed_through (CRaw s) = CRaw s)
  /\ (forall ps : Params, passed_through (CParams ps) = CParams ps).
Proof.
  split; [apply reduce_spec_normalized|]. split.
  - unfold computeNavigation. rewrite reduce_spec_normalized.
    destruct (is_root_marker cmds) eqn:E; [|reflexivity].
    destruct cmds as [|[s| | | |] [|]]; try discriminate.
    simpl in E. apply String.eqb_eq in E. now subst s.
  - split; [intros [|c p]; reflexivity|]. repeat split.
Qed.

(** ** Prefix matching *)

Lemma skipn_nth_error {A} (l : list A) (n : nat) :
  match skipn n l with
  | [] => List.length l <= n
  | x :: r => nth_error l n = Some x /\ skipn (S n) l = r
  end.
Proof.
  revert l. induction n as [|n IH]; intros [|x l]; simpl; try lia.
  - split; reflexivity.
  - specialize (IH l). destruct (skipn n l); [lia|exact IH].
Qed.

Lemma skipn_nth_Z {A} (l : list A) (k : Z) :
  (0 <= k)%Z ->
  match skipn (Z.to_nat k) l with
  | [] => (len l <= k)%Z
  | x :: r => nth_Z l k = Some x /\ skipn (Z.to_nat (k + 1)) l = r
  end.
Proof.
  intros Hk. pose proof (skipn_nth_error l (Z.to_nat k)) as H.
  unfold nth_Z, len.
  destruct (k <? 0)%Z eqn:E; [apply Z.ltb_lt in E; lia|].
  replace (Z.to_nat (k + 1)) with (S (Z.to_nat k)) by lia.
  destruct (skipn (Z.to_nat k) l); [lia|exact H].
Qed.

Lemma prefixedWith_loop_step (segs : list UrlSegment) (p k : Z)
    (command : Command) (rest' : list Command) (segment : UrlSegment) :
  (p < len segs)%Z -> isCommandWithOutlets command = false ->
  nth_Z segs p = Some segment ->
  prefixedWith_loop segs p k (command :: rest')
  = let ps := takes_parameters command (hd_error rest') in
    if compare (template command) (expected ps) segment
    then prefixedWith_loop segs (p + 1) (k + consumed ps)
           (match ps with Some _ => tl rest' | None => rest' end)
    else Ok noMatch.
Proof.
  intros Hp Ho Hs. cbn [prefixedWith_loop].
  apply Z.ltb_lt in Hp. rewrite Hp, Ho, Hs.
  destruct rest' as [|next rest'']; [reflexivity|].
  cbn [hd_error takes_parameters]. 
  destruct (truthy (template command) && isObjectWithoutOutlets next);
    reflexivity.
Qed.

Lemma prefixedWith_loop_walk (segs : list UrlSegment) (cmds : list Command)
    (n : nat) :
  forall (p k : Z) (m : PrefixMatch),
    (0 <= k)%Z -> List.length (skipn (Z.to_nat k) cmds) <= n ->
    prefixedWith_loop segs p k (skipn (Z.to_nat k) cmds) = Ok m ->
    prefixWalk segs cmds p k m.
Proof.
  induction n as [|n IH]; intros p k m Hk Hlen Hm;
    pose proof (skipn_nth_Z cmds k Hk) as Hnth;
    destruct (skipn (Z.to_nat k) cmds) as [|command rest'] eqn:Erest;
    try (simpl in Hlen; lia).
  1, 2: simpl in Hm; destruct (p <? len segs)%Z eqn:Ep;
    inversion Hm; subst;
    [ apply pw_commands_exhausted; [now apply Z.ltb_lt|assumption]
    | apply pw_segments_consumed; now apply Z.ltb_ge ].
  destruct Hnth as [Hcmd Hrest'].
  destruct (p <? len segs)%Z eqn:Ep;
    [apply Z.ltb_lt in Ep
    |simpl in Hm; rewrite Ep in Hm; inversion Hm; subst;
     apply pw_segments_consumed; now apply Z.ltb_ge].
  destruct (isCommandWithOutlets command) eqn:Eo.
  { simpl in Hm. apply Z.ltb_lt in Ep. rewrite Ep, Eo in Hm.
    inversion Hm; subst. destruct command; try discriminate.
    eapply pw_outlets_command; [now apply Z.ltb_lt|eassumption]. }
  destruct (nth_Z segs p) as [segment|] eqn:Es;
    [|simpl in Hm; apply Z.ltb_lt in Ep; rewrite Ep, Eo, Es in Hm;
      discriminate].
  rewrite (prefixedWith_loop_step _ _ _ _ _ segment Ep Eo Es) in Hm.
  assert (Hk1 : (0 <= k + 1)%Z) by lia.
  pose proof (skipn_nth_Z cmds (k + 1) Hk1) as Hnext.
  rewrite Hrest' in Hnext.
  assert (Hhd : hd_error rest' = nth_Z cmds (k + 1)).
  { destruct rest' as [|next rest'']; simpl.
    - unfold nth_Z. destruct (k + 1 <? 0)%Z; [reflexivity|].
      symmetry. apply nth_error_None. unfold len in Hnext. lia.
    - now destruct Hnext as [-> _]. }
  rewrite Hhd in Hm. cbv zeta in Hm.
  destruct (compare (template command)
              (expected (takes_parameters command (nth_Z cmds (k + 1))))
              segment) eqn:Ec;
    [|inversion Hm; subst; eapply pw_mismatch; eassumption].
  eapply pw_step; try eassumption.
  simpl in Hlen.
  destruct (takes_parameters command (nth_Z cmds (k + 1))) as [ps|] eqn:Et;
    cbn [consumed] in *.
  - destruct rest' as [|next rest'']; [rewrite <- Hhd in Et; discriminate|].
    destruct Hnext as [_ Hrest'']. replace (k + 1 + 1)%Z with (k + 2)%Z in * by lia.
    apply IH; [lia| |]; rewrite Hrest''; [simpl in Hlen; lia|exact Hm].
  - apply IH; [lia| |]; rewrite Hrest'; [lia|exact Hm].
Qed.

Lemma prefixWalk_loop (segs : list UrlSegment) (cmds : list Command)
    (p k : Z) (m : PrefixMatch) :
  prefixWalk segs cmds p k m -> (0 <= k)%Z ->
  prefixedWith_loop segs p k (skipn (Z.to_nat k) cmds) = Ok m.
Proof.
  induction 1 as [p k Hp|p k Hp Hk'|p k os Hp Hcmd
                 |p k command segment Hp Hcmd Ho Hs Hc
                 |p k command segment m Hp Hcmd Ho Hs Hc _ IH];
    intros Hk; pose proof (skipn_nth_Z cmds k Hk) as Hnth.
  - apply Z.ltb_ge in Hp.
    destruct (skipn (Z.to_nat k) cmds); simpl; now rewrite Hp.
  - destruct (skipn (Z.to_nat k) cmds) as [|c r] eqn:E.
    + simpl. apply Z.ltb_lt in Hp. now rewrite Hp.
    + destruct Hnth as [Hc _]. unfold nth_Z in Hc.
      destruct (k <? 0)%Z; [discriminate|].
      assert (nth_error cmds (Z.to_nat k) <> None) by congruence.
      apply nth_error_Some in H. unfold len in Hk'. lia.
  - destruct (skipn (Z.to_nat k) cmds) as [|c r] eqn:E.
    + unfold nth_Z in Hcmd. destruct (k <? 0)%Z; [discriminate|].
      assert (nth_error cmds (Z.to_nat k) <> None) by congruence.
      apply nth_error_Some in H. unfold len in Hnth. lia.
    + destruct Hnth as [Hc _]. rewrite Hcmd in Hc. inversion Hc; subst c.
      simpl. apply Z.ltb_lt in Hp. now rewrite Hp.
  - assert (Hk1 : (0 <= k + 1)%Z) by lia.
    pose proof (skipn_nth_Z cmds (k + 1) Hk1) as Hnext.
    destruct (skipn (Z.to_nat k) cmds) as [|c rest'] eqn:E.
    + unfold nth_Z in Hcmd. destruct (k <? 0)%Z; [discriminate|].
      assert (nth_error cmds (Z.to_nat k) <> None) by congruence.
      apply nth_error_Some in H. unfold len in Hnth. lia.
    + destruct Hnth as [Hc' Hrest']. rewrite Hcmd in Hc'. inversion Hc'; subst c.
      rewrite (prefixedWith_loop_step _ _ _ _ _ segment Hp Ho Hs).
      rewrite Hrest' in Hnext.
      assert (Hhd : hd_error rest' = nth_Z cmds (k + 1)).
      { destruct rest' as [|next rest'']; simpl.
        - unfold nth_Z. destruct (k + 1 <? 0)%Z; [reflexivity|].
          symmetry. apply nth_error_None. unfold len in Hnext. lia.
        - now destruct Hnext as [-> _]. }
      rewrite Hhd. cbv zeta. now rewrite Hc.
  - assert (Hk1 : (0 <= k + 1)%Z) by lia.
    pose proof (skipn_nth_Z cmds (k + 1) Hk1) as Hnext.
    destruct (skipn (Z.to_nat k) cmds) as [|c rest'] eqn:E.
    + unfold nth_Z in Hcmd. destruct (k <? 0)%Z; [discriminate|].
      assert (nth_error cmds (Z.to_nat k) <> None) by congruence.
      apply nth_error_Some in H. unfold len in Hnth. lia.
    + destruct Hnth as [Hc' Hrest']. rewrite Hcmd in Hc'. inversion Hc'; subst c.
      rewrite (prefixedWith_loop_step _ _ _ _ _ segment Hp Ho Hs).
      rewrite Hrest' in Hnext.
      assert (Hhd : hd_error rest' = nth_Z cmds (k + 1)).
      { destruct rest' as [|next rest'']; simpl.
        - unfold nth_Z. destruct (k + 1 <? 0)%Z; [reflexivity|].
          symmetry. apply nth_error_None. unfold len in Hnext. lia.
        - now destruct Hnext as [-> _]. }
      rewrite Hhd. cbv zeta. rewrite Hc.
      destruct (takes_parameters command (nth_Z cmds (k + 1))) as [ps|] eqn:Et;
        cbn [consumed] in *.
      * destruct rest' as [|next rest''];
          [rewrite <- Hhd in Et; discriminate|].
        destruct Hnext as [_ Hrest''].
        replace (k + 1 + 1)%Z with (k + 2)%Z in * by lia.
        cbn [tl]. rewrite <- Hrest''. apply IH. lia.
      * rewrite <- Hrest'. apply IH. lia.
Qed.

Lemma nth_Z_in_range {A} (l : list A) (i : Z) :
  (0 <= i < len l)%Z -> exists x, nth_Z l i = Some x.
Proof.
  intros Hi. unfold nth_Z, len in *.
  destruct (i <? 0)%Z eqn:E; [apply Z.ltb_lt in E; lia|].
  destruct (nth_error l (Z.to_nat i)) as [x|] eqn:En; [now exists x|].
  apply nth_error_None in En. lia.
Qed.

Lemma prefixedWith_loop_total (segs : list UrlSegment) (n : nat) :
  forall (rest : list Command) (p k : Z),
    (0 <= p)%Z -> List.length rest <= n ->
    exists m, prefixedWith_loop segs p k rest = Ok m.
Proof.
  induction n as [|n IH]; intros rest p k Hp Hlen;
    (destruct (p <? len segs)%Z eqn:Ep;
     [apply Z.ltb_lt in Ep
     |destruct rest; simpl; rewrite Ep; eexists; reflexivity]);
    (destruct rest as [|command rest'];
     [simpl; apply Z.ltb_lt in Ep; rewrite Ep; eexists; reflexivity|]);
    simpl in Hlen; [lia|].
  destruct (isCommandWithOutlets command) eqn:Eo.
  { simpl. apply Z.ltb_lt in Ep. rewrite Ep, Eo. eexists; reflexivity. }
  destruct (nth_Z_in_range segs p (conj Hp Ep)) as [segment Hs].
  rewrite (prefixedWith_loop_step _ _ _ _ _ segment Ep Eo Hs). cbv zeta.
  destruct (compare _ _ segment); [|eexists; reflexivity].
  apply IH; [lia|].
  destruct (takes_parameters command (hd_error rest')); [|lia].
  destruct rest'; simpl in *; lia.
Qed.

(** C4, as stated, fails where a parameter object follows a path command that
    is the empty string: the object is not consumed with it.  The segment
    [;a=b] with the empty path is prefixed by the commands [['', {a: 'b'}]]
    when the object is taken as the expected parameters, yet the walk compares
    the path command with no parameters and reports no match. *)
Lemma C4_empty_path_command_takes_no_parameters :
  prefixedWith (Group [mkUrlSegment "" [("a", "b")]] []) 0
               [CStr ""; CParams [("a", "b")]]
  = Ok noMatch
  /\ isObjectWithoutOutlets (CParams [("a", "b")]) = true
  /\ compare (template (CStr "")) (entries (CParams [("a", "b")]))
             (mkUrlSegment "" [("a", "b")]) = true.
Proof. repeat split; reflexivity. Qed.

(** C4, amended.  [prefixedWith] returns exactly what the walk of the
    specification determines: [match = true] with the current path and command
    indices as soon as an outlets command is met ([pw_outlets_command]) or the
    segments are used up; [match = false] when the commands are exhausted while
    segments remain ([pw_commands_exhausted]) and when a stringified path token
    or the shallow comparison of the parameters fails ([pw_mismatch]); an
    object without an [outlets] key right after a path command that is not the
    empty string is consumed together with it, as the expected parameters of
    the segment ([takes_parameters], [pw_step]).  From a start index that is
    not negative the walk always returns. *)
Theorem C4_prefix_matching (sg : UrlSegmentGroup) (startIndex : Z)
    (cmds : list Command) :
  (forall m, prefixedWith sg startIndex cmds = Ok m
             <-> prefixWalk (segments sg) cmds startIndex 0 m)
  /\ ((0 <= startIndex)%Z -> exists m, prefixedWith sg startIndex cmds = Ok m).
Proof.
  split.
  - intros m. unfold prefixedWith. split.
    + intros Hm. apply (prefixedWith_loop_walk _ _ (List.length cmds));
        [lia|simpl; lia|exact Hm].
    + intros Hw. apply prefixWalk_loop in Hw; [exact Hw|lia].
  - intros Hs. apply (prefixedWith_loop_total _ (List.length cmds)); [exact Hs|lia].
Qed.

(** ** Outlet-children processing *)

Lemma updateSegmentGroupChildren_body_segments
    (f : option UrlSegmentGroup -> Z -> list Command -> result UrlSegmentGroup)
    (sg g' : UrlSegmentGroup) (startIndex : Z) (cmds : list Command) :
  updateSegmentGroupChildren_body f sg startIndex cmds = Ok g' ->
  segments g' = segments sg.
Proof.
  unfold updateSegmentGroupChildren_body. destruct cmds as [|c cmds'].
  - now intros [= <-].
  - destruct (forEach_outlet _ _ _); simpl; [|discriminate..].
    now intros [= <-].
Qed.

(** C10.  Outlet-children processing leaves the segment chain of the group
    alone: [updateSegmentGroupChildren] either throws a [TypeError] (raised
    below it, where a segment that does not exist is read) or returns a group
    whose segments are those of the input group; with no commands it returns
    the group with the same segments and no children. *)
Theorem C10_children_processing_keeps_segments (sg : UrlSegmentGroup)
    (startIndex : Z) (cmds : list Command) :
  (updateSegmentGroupChildren sg startIndex cmds = Throw TypeError
   \/ exists g', updateSegmentGroupChildren sg startIndex cmds = Ok g'
                 /\ segments g' = segments sg)
  /\ updateSegmentGroupChildren sg startIndex [] = Ok (Group (segments sg) []).
Proof.
  split; [|reflexivity].
  pose proof (updateSegmentGroupChildren_returns sg startIndex cmds) as Hr.
  destruct (updateSegmentGroupChildren sg startIndex cmds) as [g'|e|] eqn:E.
  - right. exists g'. split; [reflexivity|].
    eapply updateSegmentGroupChildren_body_segments. exact E.
  - left. now destruct e.
  - destruct Hr.
Qed.

Lemma obj_get_not_In {V} (o : Obj V) (k : string) :
  ~ In k (obj_keys o) -> obj_get o k = None.
Proof.
  induction o as [|[k' v'] o IH]; simpl; [reflexivity|].
  intros H. destruct (String.eqb k' k) eqn:E.
  - apply String.eqb_eq in E. tauto.
  - apply IH. tauto.
Qed.

Lemma keep_untouched_get (outlets : Outlets) (old : Obj UrlSegmentGroup) :
  NoDup (obj_keys old) ->
  forall (acc : Obj UrlSegmentGroup) (o : string),
    obj_get (keep_untouched outlets old acc) o
    = match obj_get old o, obj_read outlets o with
      | Some c, Undefined => Some c
      | _, _ => obj_get acc o
      end.
Proof.
  induction old as [|[k c] old IH]; intros Hnd acc o; simpl.
  - reflexivity.
  - simpl in Hnd. inversion Hnd as [|? ? Hk Hnd']; subst.
    rewrite (IH Hnd'). destruct (String.eqb k o) eqn:E.
    + apply String.eqb_eq in E. subst o.
      rewrite (obj_get_not_In old k Hk).
      destruct (obj_read outlets k); try reflexivity.
      now rewrite obj_get_set, String.eqb_refl.
    + destruct (obj_get old o); [destruct (obj_read outlets o)|];
        destruct (obj_read outlets k); try reflexivity;
        now rewrite obj_get_set, E.
Qed.

Lemma keep_untouched_mentioned (outlets : Outlets) (o : string)
    (old : Obj UrlSegmentGroup) :
  obj_read outlets o <> Undefined ->
  forall acc, obj_get (keep_untouched outlets old acc) o = obj_get acc o.
Proof.
  intros Ho. induction old as [|[k c] old IH]; intros acc; simpl.
  - reflexivity.
  - rewrite IH. destruct (obj_read outlets k) eqn:Ek; try reflexivity.
    rewrite obj_get_set. destruct (String.eqb k o) eqn:E; [|reflexivity].
    apply String.eqb_eq in E. subst. contradiction.
Qed.

Lemma forEach_outlet_null (outlets : Outlets)
    (f : string -> list Command -> result UrlSegmentGroup) (o : string) :
  (forall v, In (o, v) outlets -> v = ONull) ->
  forall acc r, forEach_outlet outlets f acc = Ok r ->
                obj_get r o = obj_get acc o.
Proof.
  induction outlets as [|[k v] outlets IH]; intros Hnull acc r; simpl.
  - now intros [= <-].
  - assert (Hrest : forall v', In (o, v') outlets -> v' = ONull)
      by (intros v' Hin; apply Hnull; now right).
    destruct (outlet_commands v) as [cs|] eqn:Ev; [|now apply IH].
    destruct (f k cs) as [g| |]; simpl; [|discriminate..].
    intros Hr. rewrite (IH Hrest _ _ Hr), obj_get_set.
    destruct (String.eqb k o) eqn:E; [|reflexivity].
    apply String.eqb_eq in E. subst k.
    rewrite (Hnull v (or_introl eq_refl)) in Ev. discriminate.
Qed.

Lemma NoDup_entry {V} (o : Obj V) (k : string) (v v' : V) :
  NoDup (obj_keys o) -> obj_get o k = Some v -> In (k, v') o -> v' = v.
Proof.
  induction o as [|[k0 v0] o IH]; simpl; [discriminate|].
  intros Hnd. inversion Hnd as [|? ? Hk Hnd']; subst.
  destruct (String.eqb k0 k) eqn:E.
  - apply String.eqb_eq in E. subst k0. intros [= <-] [[= <-]|Hin];
      [reflexivity|].
    exfalso. apply Hk. apply in_map_iff. now exists (k, v').
  - intros Hget [[= -> _]|Hin]; [now rewrite String.eqb_refl in E|].
    now apply IH.
Qed.

Lemma updateSegmentGroupChildren_body_children
    (f : option UrlSegmentGroup -> Z -> list Command -> result UrlSegmentGroup)
    (sg g' : UrlSegmentGroup) (startIndex : Z) (cmds : list Command) :
  cmds <> [] ->
  updateSegmentGroupChildren_body f sg startIndex cmds = Ok g' ->
  exists r,
    forEach_outlet (getOutlets cmds)
      (fun outlet commands =>
         update_child f (children sg) outlet startIndex commands) [] = Ok r
    /\ children g' = keep_untouched (getOutlets cmds) (children sg) r.
Proof.
  intros Hne. unfold updateSegmentGroupChildren_body.
  destruct cmds as [|c0 cmds']; [contradiction|]. cbv zeta.
  destruct (forEach_outlet _ _ _) as [r| |]; simpl; [|discriminate..].
  intros [= <-]. exists r. split; reflexivity.
Qed.

(** C2.  The code drops an existing outlet that the per-outlet command
    mapping does not mention when the outlet has the name of a member that
    every object inherits.  In the tree
    [/team/33/(user/11//constructor:chat)] the commands
    [[{outlets: {primary: ['user', '22']}}]] at the group [team/33] do not
    mention the outlet [constructor]; [outlets['constructor']] is the
    inherited function, not [undefined], and the child [chat] is not kept:
    the tree is [/team/33/user/22].  With the outlet named [right] instead
    the child survives, and the example of the claim holds: the commands
    [[{outlets: {right: null}}]] remove the outlet [right] of
    [/team/33/(user/11//right:chat)] and give [/team/33/user/11]. *)
Theorem C2_outlet_named_constructor_is_dropped :
  serializeRoot (node (root_of team_33_constructor))
  = "/team/33/(user/11//constructor:chat)"
  /\ obj_get (children (node team_33_constructor)) "constructor"
     = Some (Group [seg "chat"] [])
  /\ obj_get (getOutlets [COutlets [(PRIMARY_OUTLET,
                                     OList [CStr "user"; CStr "22"])]])
             "constructor"
     = None
  /\ updateSegmentGroupChildren (node team_33_constructor) 0
       [COutlets [(PRIMARY_OUTLET, OList [CStr "user"; CStr "22"])]]
     = Ok (Group [seg "team"; seg "33"]
                 [(PRIMARY_OUTLET, Group [seg "user"; seg "22"] [])])
  /\ (t <- createUrlTreeFromSegmentGroup team_33_constructor
             [COutlets [(PRIMARY_OUTLET, OList [CStr "user"; CStr "22"])]]
             None None ;;
      Ok (serializeRoot (root t)))
     = Ok "/team/33/user/22"
  /\ (t <- createUrlTreeFromSegmentGroup team_33_outlets
             [COutlets [(PRIMARY_OUTLET, OList [CStr "user"; CStr "22"])]]
             None None ;;
      Ok (serializeRoot (root t)))
     = Ok "/team/33/(user/22//right:chat)"
  /\ (t <- createUrlTreeFromSegmentGroup team_33_outlets
             [COutlets [("right", ONull)]] None None ;;
      Ok (serializeRoot (root t)))
     = Ok "/team/33/user/11".
Proof. repeat split; reflexivity. Qed.

(** In outlet-children processing with a non-empty command list, an existing
    outlet that the per-outlet command mapping does not mention keeps its
    child group unchanged, unless its name is that of a member every object
    inherits: then the child is dropped.  An outlet whose value in the
    mapping is [null] has no child in the result. *)
Theorem untouched_outlets_survive_null_removes (sg g' : UrlSegmentGroup)
    (startIndex : Z) (cmds : list Command) :
  cmds <> [] ->
  updateSegmentGroupChildren sg startIndex cmds = Ok g' ->
  (NoDup (obj_keys (children sg)) ->
   forall o c, obj_get (children sg) o = Some c ->
               obj_get (getOutlets cmds) o = None ->
               obj_get (children g') o = if inherited o then None else Some c)
  /\ (NoDup (obj_keys (getOutlets cmds)) ->
      forall o, obj_get (getOutlets cmds) o = Some ONull ->
                obj_get (children g') o = None).
Proof.
  intros Hne Hg'.
  apply updateSegmentGroupChildren_body_children in Hg' as (r & Er & ->);
    [|exact Hne].
  split.
  - intros Hnd o c Hc Ho. rewrite (keep_untouched_get _ _ Hnd), Hc.
    unfold obj_read. rewrite Ho. destruct (inherited o); [|reflexivity].
    rewrite (fun H => forEach_outlet_null _ _ o H _ _ Er); [reflexivity|].
    intros v Hin. exfalso. apply (obj_get_None_In _ _ Ho).
    apply in_map_iff. now exists (o, v).
  - intros Hnd o Ho.
    rewrite keep_untouched_mentioned
      by (unfold obj_read; rewrite Ho; discriminate).
    rewrite (fun H => forEach_outlet_null _ _ o H _ _ Er); [reflexivity|].
    intros v Hin. eapply NoDup_entry; eassumption.
Qed.

Lemma untouched_outlets_survive_null_removes_witness :
  obj_get
    (children
       (Group [seg "team"; seg "33"]
          [(PRIMARY_OUTLET, Group [seg "user"; seg "11"] [])]))
    PRIMARY_OUTLET
  = Some (Group [seg "user"; seg "11"] [])
  /\ obj_get
       (children
          (Group [seg "team"; seg "33"]
             [(PRIMARY_OUTLET, Group [seg "user"; seg "11"] [])]))
       "right"
     = None.
Proof.
  pose proof (untouched_outlets_survive_null_removes
                (node team_33_outlets)
                (Group [seg "team"; seg "33"]
                   [(PRIMARY_OUTLET, Group [seg "user"; seg "11"] [])])
                0%Z [COutlets [("right", ONull)]]
                ltac:(discriminate) eq_refl) as [Hkeep Hnull].
  split.
  - apply (Hkeep ltac:(repeat constructor; simpl; intuition discriminate)
                 PRIMARY_OUTLET (Group [seg "user"; seg "11"] [])
                 eq_refl eq_refl).
  - apply Hnull; [|reflexivity].
    repeat constructor; simpl; intuition discriminate.
Defined.

(** ** Matrix parameters as first command *)

Lemma createNewSegmentGroup_loop_extends
    (mk : Outlets -> result (Obj UrlSegmentGroup)) (segs : list UrlSegment)
    (startIndex : Z) (n : nat) :
  forall (rest : list Command) (paths : list UrlSegment) (i : Z)
         (g : UrlSegmentGroup),
    List.length rest <= n ->
    createNewSegmentGroup_loop mk segs startIndex paths i rest = Ok g ->
    exists more, segments g = paths ++ more.
Proof.
  induction n as [|n IH]; intros rest paths i g Hlen Hg.
  - destruct rest; [|simpl in Hlen; lia]. simpl in Hg. inversion Hg.
    exists []. simpl. now rewrite app_nil_r.
  - destruct rest as [|command rest'].
    { simpl in Hg. inversion Hg. exists []. simpl. now rewrite app_nil_r. }
    simpl in Hlen.
    assert (Hone : forall s i',
      createNewSegmentGroup_loop mk segs startIndex (paths ++ [s]) i' rest'
      = Ok g -> exists more, segments g = paths ++ more).
    { intros s i' H. apply IH in H as [more Hmore]; [|lia].
      exists (s :: more). now rewrite Hmore, <- app_assoc. }
    assert (Htwo : forall next rest'' s i', rest' = next :: rest'' ->
      createNewSegmentGroup_loop mk segs startIndex (paths ++ [s]) i' rest''
      = Ok g -> exists more, segments g = paths ++ more).
    { intros next rest'' s i' -> H. simpl in Hlen.
      apply IH in H as [more Hmore]; [|lia].
      exists (s :: more). now rewrite Hmore, <- app_assoc. }
    destruct command;
      try (cbn [createNewSegmentGroup_loop] in Hg;
           destruct ((i =? 0)%Z && isMatrixParams _);
           [ destruct (nth_Z segs startIndex); [eapply Hone; exact Hg|discriminate]
           | destruct rest' as [|next rest''];
             [ eapply Hone; exact Hg
             | destruct (truthy _ && isMatrixParams next);
               [ eapply Htwo; [reflexivity|exact Hg] | eapply Hone; exact Hg ] ] ]).
    cbn [createNewSegmentGroup_loop] in Hg.
    destruct (mk os); simpl in Hg; inversion Hg.
    exists []. simpl. now rewrite app_nil_r.
Qed.

(** A leading matrix-parameter object is attached to the segment that exists
    at [startIndex]: the segment keeps its path and takes the stringified
    entries as parameters; the segments before it are kept. *)
Lemma createNewSegmentGroup_attaches (sg g : UrlSegmentGroup) (startIndex : Z)
    (ps : Params) (rest : list Command) (p : UrlSegment) :
  nth_Z (segments sg) startIndex = Some p ->
  createNewSegmentGroup sg startIndex (CParams ps :: rest) = Ok g ->
  exists more,
    segments g
    = slice_to (segments sg) startIndex
      ++ mkUrlSegment (path p) (stringify (CParams ps)) :: more.
Proof.
  intros Hp Hg. unfold createNewSegmentGroup in Hg.
  cbn [createNewSegmentGroup_fuel createNewSegmentGroup_loop] in Hg.
  cbn [Z.eqb isMatrixParams andb] in Hg. rewrite Hp in Hg.
  apply (createNewSegmentGroup_loop_extends _ _ _ (List.length rest)) in Hg
    as [more Hmore]; [|lia].
  exists more. now rewrite Hmore, <- app_assoc.
Qed.

Lemma nth_Z_last {A} (init : list A) (last : A) :
  nth_Z (init ++ [last]) (len init) = Some last.
Proof.
  unfold nth_Z, len. destruct (Z.of_nat _ <? 0)%Z eqn:E;
    [apply Z.ltb_lt in E; lia|].
  rewrite Nat2Z.id, nth_error_app2, Nat.sub_diag by lia. reflexivity.
Qed.

Lemma slice_to_init {A} (init : list A) (last : A) :
  slice_to (init ++ [last]) (len init) = init.
Proof.
  unfold slice_to, slice_bound, len. destruct (Z.of_nat _ <? 0)%Z eqn:E;
    [apply Z.ltb_lt in E; lia|].
  rewrite length_app. simpl.
  replace (Z.to_nat _) with (List.length init + 0) by lia.
  now rewrite firstn_app_2, app_nil_r.
Qed.

(** Relative navigation with the single command [{...ps}] from a group that is
    not the root and whose last segment is not called [[object Object]]: the
    parameters are attached to the last segment of the group. *)
Theorem matrix_params_attach_to_last_segment (anchor : GroupRef)
    (init : list UrlSegment) (last : UrlSegment) (ps : Params)
    (queryParams : option (Obj QueryValue)) (fragment : option string) :
  above anchor <> [] ->
  segments (node anchor) = init ++ [last] ->
  path last <> object_Object ->
  createUrlTreeFromSegmentGroup anchor [CParams ps] queryParams fragment
  = Ok (tree (root_of anchor) anchor
             (Group (init ++ [mkUrlSegment (path last) (stringify (CParams ps))])
                    [])
             queryParams fragment).
Proof.
  intros Habove Hsegs Hpath. destruct anchor as [sg up]. simpl in *.
  destruct up as [|f up]; [contradiction|].
  unfold createUrlTreeFromSegmentGroup.
  change (computeNavigation [CParams ps])
    with (Ok (mkNavigation false 0 [CParams ps])).
  cbn [bind toRoot isAbsolute andb].
  unfold findStartingPositionForTargetGroup, parent, modifier.
  cbn [isAbsolute above commands isMatrixParams numberOfDoubleDots node].
  unfold createPositionApplyingDoubleDots. cbn [node above].
  assert (Hlen : (len (segments sg) - 1 + 0 = len init)%Z).
  { rewrite Hsegs. unfold len. rewrite length_app. simpl. lia. }
  rewrite Hlen.
  assert (Hdd : applyDoubleDots sg (f :: up) (len init) 0
                = Ok (mkPosition (mkRef sg (f :: up)) false (len init))).
  { simpl. pose proof (len_nonneg init).
    destruct (0 >? len init)%Z eqn:E; [apply Z.gtb_lt in E; lia|].
    now rewrite Z.sub_0_r. }
  rewrite Hdd. cbn [bind]. unfold apply_at.
  cbn [processChildren segmentGroup index node commands].
  assert (Hupd : updateSegmentGroup (Some sg) (len init) [CParams ps]
                 = Ok (Group (init ++ [mkUrlSegment (path last)
                                         (stringify (CParams ps))]) [])).
  { unfold updateSegmentGroup. cbn [updateSegmentGroup_fuel].
    unfold updateSegmentGroup_body.
    assert (Hne : (len (segments sg) =? 0)%Z = false).
    { apply Z.eqb_neq. pose proof (len_nonneg init). lia. }
    rewrite Hne. cbn [andb].
    assert (Hpre : prefixedWith sg (len init) [CParams ps] = Ok noMatch).
    { unfold prefixedWith. cbn [prefixedWith_loop].
      assert (Hlt : (len init <? len (segments sg))%Z = true)
        by (apply Z.ltb_lt; lia).
      rewrite Hlt. cbn [isCommandWithOutlets]. rewrite Hsegs, nth_Z_last.
      unfold compare. cbn [template].
      assert (Hneq : String.eqb object_Object (path last) = false)
        by (apply String.eqb_neq; congruence).
      now rewrite Hneq. }
    rewrite Hpre. cbn [bind match_ noMatch andb].
    unfold createNewSegmentGroup.
    cbn [createNewSegmentGroup_fuel createNewSegmentGroup_loop].
    cbn [Z.eqb isMatrixParams andb].
    now rewrite Hsegs, nth_Z_last, slice_to_init. }
  rewrite Hupd. reflexivity.
Qed.

Lemma matrix_params_attach_to_last_segment_witness :
  createUrlTreeFromSegmentGroup team_33 [CParams [("expand", "true")]] None None
  = Ok (mkUrlTree
          (Group [] [(PRIMARY_OUTLET,
                      Group [seg "team"; mkUrlSegment "33" [("expand", "true")]]
                            [])])
          [] None).
Proof.
  exact (matrix_params_attach_to_last_segment team_33 [seg "team"] (seg "33")
           [("expand", "true")] None None
           ltac:(discriminate) eq_refl ltac:(discriminate)).
Defined.

(** C7 fails on the code for a segment whose path is the text
    [[object Object]]: prefix matching renders the parameter object as that
    text, takes the segment as matched and the navigation as complete, and the
    tree is returned without the parameters.  For the group [team/33] of
    [/team/33] the commands [[{expand: 'true'}]] do yield
    [/team/33;expand=true]. *)
Theorem C7_matrix_params_first_command :
  createUrlTreeFromSegmentGroup object_Object_group
    [CParams [("expand", "true")]] None None
  = Ok (mkUrlTree (Group [] [(PRIMARY_OUTLET, Group [seg object_Object] [])])
                  [] None)
  /\ prefixedWith (node object_Object_group) 0 [CParams [("expand", "true")]]
     = Ok (mkMatch true 1 1)
  /\ createUrlTreeFromSegmentGroup team_33 [CParams [("expand", "true")]]
       None None
     = Ok (mkUrlTree
             (Group [] [(PRIMARY_OUTLET,
                         Group [seg "team";
                                mkUrlSegment "33" [("expand", "true")]] [])])
             [] None)
  /\ serializeRoot
       (Group [] [(PRIMARY_OUTLET,
                   Group [seg "team"; mkUrlSegment "33" [("expand", "true")]]
                         [])])
     = "/team/33;expand=true".
Proof. repeat split; reflexivity. Qed.

(** ** Absolute navigation *)

Lemma computeNavigation_isAbsolute (cmds : list Command) (nav : Navigation) :
  computeNavigation cmds = Ok nav ->
  isAbsolute nav = st_isAbsolute (normalized cmds).
Proof.
  rewrite computeNavigation_normalized. unfold new_Navigation.
  destruct (_ && _); [discriminate|].
  destruct (find_index _ _); [destruct (negb _); [discriminate|]|];
    now intros [= <-].
Qed.

(** C9.  Absolute navigation does not depend on the anchor: two group objects
    of one tree (their walks to the root end at the same root) give the same
    outcome, tree or error, for every command list that normalizes to an
    absolute navigation, with any query parameters and fragment. *)
Theorem C9_absolute_navigation_anchor_independent (anchorA anchorB : GroupRef)
    (cmds : list Command) (queryParams : option (Obj QueryValue))
    (fragment : option string) :
  root_of anchorA = root_of anchorB ->
  st_isAbsolute (normalized cmds) = true ->
  createUrlTreeFromSegmentGroup anchorA cmds queryParams fragment
  = createUrlTreeFromSegmentGroup anchorB cmds queryParams fragment.
Proof.
  intros Hroot Habs. unfold createUrlTreeFromSegmentGroup.
  rewrite Hroot. destruct cmds as [|c cmds']; [reflexivity|].
  destruct (computeNavigation (c :: cmds')) as [nav| |] eqn:Hnav;
    [|reflexivity..].
  apply computeNavigation_isAbsolute in Hnav. rewrite Habs in Hnav.
  cbn [bind]. destruct (toRoot nav); [reflexivity|].
  unfold findStartingPositionForTargetGroup. now rewrite Hnav.
Qed.

Lemma C9_absolute_navigation_anchor_independent_witness :
  createUrlTreeFromSegmentGroup team_33_outlets [CStr "/"; CStr "x"] None None
  = createUrlTreeFromSegmentGroup user_11 [CStr "/"; CStr "x"] None None.
Proof.
  exact (C9_absolute_navigation_anchor_independent team_33_outlets user_11
           [CStr "/"; CStr "x"] None None eq_refl eq_refl).
Defined.

(** ** Squashing *)

Lemma UrlSegmentGroup_nested_ind (P : UrlSegmentGroup -> Prop) :
  (forall segs cs, Forall (fun kv => P (snd kv)) cs -> P (Group segs cs)) ->
  forall g, P g.
Proof.
  intros H. fix IH 1. intros [segs cs]. apply H.
  induction cs as [|kv cs IHcs]; constructor; [apply IH|exact IHcs].
Qed.

Lemma squash_child_squashed (g : UrlSegmentGroup) :
  squashed_below (squash_child g) = true.
Proof.
  induction g as [segs cs IH] using UrlSegmentGroup_nested_ind.
  cbn [squash_child].
  assert (Hall : forallb (fun kv => squashed_below (snd kv))
                   (map (fun kv => (fst kv, squash_child (snd kv))) cs) = true).
  { apply forallb_forall. intros kv Hin.
    apply in_map_iff in Hin as (kv0 & <- & Hin0). simpl.
    rewrite Forall_forall in IH. now apply IH. }
  destruct segs as [|s segs].
  - destruct (map (fun kv => (fst kv, squash_child (snd kv))) cs)
      as [|[o c] [|kv' cs']] eqn:E.
    + reflexivity.
    + simpl in Hall. now rewrite andb_true_r in Hall.
    + cbn [squashed_below collapsible negb andb]. exact Hall.
  - cbn [squashed_below collapsible]. 
    destruct (map (fun kv => (fst kv, squash_child (snd kv))) cs);
      cbn [squashed_below collapsible negb andb]; exact Hall.
Qed.

Lemma squashSegmentGroup_squashed (g : UrlSegmentGroup) :
  squashed (squashSegmentGroup g) = true.
Proof.
  unfold squashed, squashSegmentGroup, obj_map. cbn [children].
  apply forallb_forall. intros kv Hin.
  apply in_map_iff in Hin as (kv0 & <- & _). apply squash_child_squashed.
Qed.

Lemma squash_child_fixed (g : UrlSegmentGroup) :
  squashed_below g = true -> squash_child g = g.
Proof.
  induction g as [segs cs IH] using UrlSegmentGroup_nested_ind.
  cbn [squashed_below squash_child]. intros H.
  apply andb_prop in H as [Hnc Hall].
  assert (Hmap : map (fun kv => (fst kv, squash_child (snd kv))) cs = cs).
  { rewrite <- (map_id cs) at 2. apply map_ext_in. intros [o c] Hin. simpl.
    f_equal. rewrite Forall_forall in IH. apply (IH (o, c) Hin).
    rewrite forallb_forall in Hall. apply (Hall (o, c) Hin). }
  rewrite Hmap. destruct segs; [|reflexivity].
  destruct cs as [|[o c] [|kv' cs']]; try reflexivity. discriminate.
Qed.

Lemma squashSegmentGroup_fixed (g : UrlSegmentGroup) :
  squashed g = true -> squashSegmentGroup g = g.
Proof.
  destruct g as [segs cs]. unfold squashed, squashSegmentGroup, obj_map.
  cbn [children segments]. intros Hall. f_equal.
  rewrite <- (map_id cs) at 2. apply map_ext_in. intros [o c] Hin. simpl.
  f_equal. apply squash_child_fixed.
  rewrite forallb_forall in Hall. apply (Hall (o, c) Hin).
Qed.

Lemma tree_squashed (oldRoot oldSegmentGroup : GroupRef)
    (newSegmentGroup : UrlSegmentGroup) (queryParams : option (Obj QueryValue))
    (fragment : option string) :
  squashed (root (tree oldRoot oldSegmentGroup newSegmentGroup queryParams
                       fragment)) = true.
Proof. apply squashSegmentGroup_squashed. Qed.

(** C5.  Every tree that [createUrlTreeFromSegmentGroup] or [createUrlTree]
    returns is squashed: no group other than its root has an empty segment
    list together with exactly one outlet child.  ([createUrlTreeFromSnapshot]
    returns what [createUrlTreeFromSegmentGroup] returns for the group of the
    snapshot.) *)
Theorem C5_returned_trees_are_squashed :
  (forall relativeTo cmds queryParams fragment t,
     createUrlTreeFromSegmentGroup relativeTo cmds queryParams fragment = Ok t ->
     squashed (root t) = true)
  /\ (forall route urlTree cmds queryParams fragment t,
        createUrlTree route urlTree cmds queryParams fragment = Ok t ->
        squashed (root t) = true).
Proof.
  split.
  - intros relativeTo cmds qp f t. unfold createUrlTreeFromSegmentGroup.
    destruct cmds as [|c cmds']; [intros [= <-]; apply tree_squashed|].
    destruct (computeNavigation _) as [nav| |]; cbn [bind]; [|discriminate..].
    destruct (toRoot nav); [intros [= <-]; apply tree_squashed|].
    destruct (findStartingPositionForTargetGroup _ _ _) as [pos| |];
      cbn [bind]; [|discriminate..].
    destruct (apply_at pos nav) as [g| |]; cbn [bind]; [|discriminate..].
    intros [= <-]. apply tree_squashed.
  - intros route urlTree cmds qp f t. unfold createUrlTree.
    destruct cmds as [|c cmds']; [intros [= <-]; apply tree_squashed|].
    destruct (computeNavigation _) as [nav| |]; cbn [bind]; [|discriminate..].
    destruct (toRoot nav); [intros [= <-]; apply tree_squashed|].
    destruct (findStartingPosition _ _ _ _) as [pos| |];
      cbn [bind]; [|discriminate..].
    destruct (apply_at pos nav) as [g| |]; cbn [bind]; [|discriminate..].
    intros [= <-]. apply tree_squashed.
Qed.

Lemma C5_returned_trees_are_squashed_witness :
  squashed (Group [] [(PRIMARY_OUTLET, Group [seg "b"] [])]) = true.
Proof.
  exact (proj1 C5_returned_trees_are_squashed empty_path_parent [CStr "b"]
           None None
           (mkUrlTree (Group [] [(PRIMARY_OUTLET, Group [seg "b"] [])]) [] None)
           eq_refl).
Defined.

(** ** Empty command list *)

(** C1, as stated, fails: from the group of an empty-path route with one
    child, the empty command list returns a tree in which that group is
    collapsed into its child; the root of the result is not the root of the
    tree of the anchor. *)
Lemma C1_empty_commands_squash_the_tree :
  createUrlTreeFromSegmentGroup empty_path_parent [] None None
  = Ok (mkUrlTree (Group [] [(PRIMARY_OUTLET, Group [seg "a"] [])]) [] None)
  /\ node (root_of empty_path_parent)
     = Group [] [(PRIMARY_OUTLET,
                  Group [] [(PRIMARY_OUTLET, Group [seg "a"] [])])]
  /\ Group [] [(PRIMARY_OUTLET, Group [seg "a"] [])]
     <> node (root_of empty_path_parent).
Proof. repeat split; try reflexivity. discriminate. Qed.

(** C1, amended.  For every anchor, the empty command list returns a tree
    whose root is the squashed root of the tree of the anchor, with the given
    (stringified) query parameters and the given fragment; the root is equal
    to the root of the tree of the anchor when that tree is squashed already.
    The same holds of [createUrlTree] and the root of the tree it is given. *)
Theorem C1_empty_command_list (relativeTo : GroupRef) (route : ActivatedRoute)
    (urlTree : UrlTree) (queryParams : option (Obj QueryValue))
    (fragment : option string) :
  let qp := match queryParams with
            | Some q => obj_map stringify_query q
            | None => []
            end in
  createUrlTreeFromSegmentGroup relativeTo [] queryParams fragment
  = Ok (mkUrlTree (squashSegmentGroup (node (root_of relativeTo))) qp fragment)
  /\ (squashed (node (root_of relativeTo)) = true ->
      createUrlTreeFromSegmentGroup relativeTo [] queryParams fragment
      = Ok (mkUrlTree (node (root_of relativeTo)) qp fragment))
  /\ createUrlTree route urlTree [] queryParams fragment
     = Ok (mkUrlTree (squashSegmentGroup (root urlTree)) qp fragment)
  /\ (squashed (root urlTree) = true ->
      createUrlTree route urlTree [] queryParams fragment
      = Ok (mkUrlTree (root urlTree) qp fragment)).
Proof.
  intros qp.
  assert (H1 : createUrlTreeFromSegmentGroup relativeTo [] queryParams fragment
               = Ok (mkUrlTree (squashSegmentGroup (node (root_of relativeTo)))
                               qp fragment)) by reflexivity.
  assert (H2 : createUrlTree route urlTree [] queryParams fragment
               = Ok (mkUrlTree (squashSegmentGroup (root urlTree)) qp fragment))
    by reflexivity.
  split; [exact H1|]. split; [|split; [exact H2|]].
  - intros Hs. rewrite H1. now rewrite (squashSegmentGroup_fixed _ Hs).
  - intros Hs. rewrite H2. now rewrite (squashSegmentGroup_fixed _ Hs).
Qed.

Lemma C1_empty_command_list_witness :
  createUrlTreeFromSegmentGroup team_33_outlets [] None (Some "top")
  = Ok (mkUrlTree (node (root_of team_33_outlets)) [] (Some "top")).
Proof.
  exact (proj1 (proj2 (C1_empty_command_list team_33_outlets
                         (mkActivatedRoute team_33_outlets 1)
                         (mkUrlTree (node (root_of team_33_outlets)) [] None)
                         None (Some "top")))
               eq_refl).
Defined.

(** ** The updater as a whole *)

(** [updateSegmentGroup], [updateSegmentGroupChildren] and
    [createNewSegmentGroup] satisfy the recursive equations by which the
    source defines them, and each call returns a group or throws a
    [TypeError]: the rewrite terminates on every group, start index and
    command list. *)
Theorem segment_group_updater_terminates (sg : UrlSegmentGroup)
    (startIndex : Z) (cmds : list Command) :
  updateSegmentGroup (Some sg) startIndex cmds
  = updateSegmentGroup_body updateSegmentGroupChildren (Some sg) startIndex cmds
  /\ updateSegmentGroupChildren sg startIndex cmds
     = updateSegmentGroupChildren_body updateSegmentGroup sg startIndex cmds
  /\ createNewSegmentGroup sg startIndex cmds
     = createNewSegmentGroup_loop createNewSegmentChildren (segments sg)
         startIndex (slice_to (segments sg) startIndex) 0 cmds
  /\ returns_or_TypeError (updateSegmentGroup (Some sg) startIndex cmds)
  /\ returns_or_TypeError (updateSegmentGroupChildren sg startIndex cmds)
  /\ returns_or_TypeError (createNewSegmentGroup sg startIndex cmds).
Proof.
  split; [apply updateSegmentGroup_eq|].
  split; [apply updateSegmentGroupChildren_eq|].
  split; [apply createNewSegmentGroup_eq|].
  split; [apply updateSegmentGroup_returns|].
  split; [apply updateSegmentGroupChildren_returns
         |apply createNewSegmentGroup_returns].
Qed.

(** * Further properties of the code *)

(** ** What [computeNavigation] returns *)

Lemma find_index_not_last {A} (p : A -> bool) (l : list A) (i : nat) :
  find_index p l = Some i -> S i < List.length l ->
  existsb p (removelast l) = true.
Proof.
  revert i. induction l as [|x l IH]; intros i; [discriminate|].
  destruct l as [|y l]; [simpl; destruct (p x); intros [= <-]; simpl; lia|].
  change (removelast (x :: y :: l)) with (x :: removelast (y :: l)).
  remember (y :: l) as l' eqn:El'. simpl. destruct (p x); [reflexivity|].
  destruct (find_index p l') as [i'|] eqn:Ei; [|discriminate].
  intros [= <-] Hlt. simpl. apply (IH i' eq_refl). lia.
Qed.

Lemma find_index_lt {A} (p : A -> bool) (l : list A) (i : nat) :
  find_index p l = Some i -> i < List.length l.
Proof.
  revert i. induction l as [|x l IH]; intros i; simpl; [discriminate|].
  destruct (p x); [intros [= <-]; lia|].
  destruct (find_index p l) as [i'|]; [|discriminate].
  intros [= <-]. specialize (IH i' eq_refl). lia.
Qed.

Lemma new_Navigation_Ok (abs : bool) (dd : Z) (cmds : list Command)
    (nav : Navigation) :
  new_Navigation abs dd cmds = Ok nav
  <-> nav = mkNavigation abs dd cmds
      /\ has_misplaced_outlets cmds = false
      /\ root_with_matrix_params (mkNavState cmds abs dd) = false.
Proof.
  unfold new_Navigation, root_with_matrix_params, has_misplaced_outlets.
  cbn [st_isAbsolute st_res].
  assert (Hcond : abs && negb (Nat.eqb (List.length cmds) 0)
                  && match cmds with c :: _ => isMatrixParams c | [] => false end
                  = abs && match cmds with c :: _ => isMatrixParams c
                                      | [] => false end).
  { destruct cmds; simpl; [now rewrite !andb_false_r|now rewrite andb_true_r]. }
  rewrite Hcond.
  destruct (abs && match cmds with c :: _ => isMatrixParams c | [] => false end).
  { split; [discriminate|]. intros (_ & _ & H). discriminate. }
  destruct (existsb isCommandWithOutlets (removelast cmds)) eqn:Emis.
  - destruct (find_index_misplaced _ _ Emis) as (i & -> & Hlt).
    assert (Hneq : Nat.eqb (S i) (List.length cmds) = false)
      by (apply Nat.eqb_neq; lia).
    rewrite Hneq. cbn [negb]. split; [discriminate|].
    intros (_ & H & _). discriminate.
  - destruct (find_index isCommandWithOutlets cmds) as [i|] eqn:Ei.
    + destruct (Nat.eqb (S i) (List.length cmds)) eqn:Elast; cbn [negb].
      * split; [intros [= <-]; auto|intros (-> & _); reflexivity].
      * apply Nat.eqb_neq in Elast. pose proof (find_index_lt _ _ _ Ei).
        rewrite (find_index_not_last _ _ _ Ei) in Emis by lia. discriminate.
    + split; [intros [= <-]; auto|intros (-> & _); reflexivity].
Qed.

(** [computeNavigation] returns a navigation exactly when the normalized
    commands hold no outlets command before the last position and the
    navigation is not an absolute one that starts with a matrix-parameter
    object; the navigation is then the normalized one. *)
Theorem computeNavigation_returns_valid_navigations (cmds : list Command)
    (nav : Navigation) :
  computeNavigation cmds = Ok nav
  <-> nav = mkNavigation (st_isAbsolute (normalized cmds))
                         (st_numberOfDoubleDots (normalized cmds))
                         (st_res (normalized cmds))
      /\ has_misplaced_outlets (st_res (normalized cmds)) = false
      /\ root_with_matrix_params (normalized cmds) = false.
Proof.
  rewrite computeNavigation_normalized, new_Navigation_Ok.
  now destruct (normalized cmds).
Qed.

Lemma classes_later_not_absolute (parts : list string) :
  forall i, existsb sets_absolute (classes (S i) parts) = false.
Proof.
  induction parts as [|p parts IH]; intros i; [reflexivity|].
  cbn [classes existsb]. rewrite IH, orb_false_r. unfold classify.
  cbn [Nat.eqb]. rewrite andb_false_r.
  destruct (String.eqb p ""); [reflexivity|].
  destruct (String.eqb p ".."); reflexivity.
Qed.

Lemma split_from_head (sep : ascii) (s : string) :
  forall cur, exists t rest,
    split_from sep cur s = (cur ++ t)%string :: rest.
Proof.
  induction s as [|c s IH]; intros cur; simpl.
  - exists "", []. f_equal. induction cur; simpl; congruence.
  - destruct (Ascii.eqb c sep).
    + exists "", (split_from sep "" s). f_equal.
      induction cur; simpl; congruence.
    + destruct (IH (cur ++ String c "")%string) as (t & rest & ->).
      exists (String c t), rest. f_equal.
      induction cur; simpl; congruence.
Qed.

(** A navigation is absolute exactly when its first command is a string that
    is empty or begins with [/]; the commands ['']  are an absolute
    navigation. *)
Theorem absolute_iff_first_command_begins_absolute (cmds : list Command) :
  st_isAbsolute (normalized cmds)
  = match cmds with
    | CStr s :: _ => begins_absolute s
    | _ => false
    end.
Proof.
  unfold normalized. destruct (is_root_marker cmds) eqn:Eroot.
  - destruct cmds as [|[s| | | |] [|]]; try discriminate.
    simpl in Eroot. apply String.eqb_eq in Eroot. now subst s.
  - rewrite reduce_spec_normalized.
    destruct cmds as [|[s| | | |] rest]; try reflexivity.
    cbn [spec_normalized st_isAbsolute]. unfold split.
    destruct s as [|c s]; [reflexivity|].
    cbn [split_from begins_absolute String.append].
    destruct (Ascii.eqb c slash); [reflexivity|].
    destruct (split_from_head slash s (String c "")) as (t & parts & ->).
    cbn [classes existsb]. rewrite classes_later_not_absolute, orb_false_r.
    unfold classify. cbn [String.append String.eqb].
    repeat match goal with
           | |- context [if ?b then _ else _] => destruct b
           end; reflexivity.
Qed.

Lemma has_slash_app (a b : string) :
  has_slash (a ++ b) = has_slash a || has_slash b.
Proof.
  induction a as [|c a IH]; simpl; [reflexivity|].
  now rewrite IH, orb_assoc.
Qed.

Lemma split_from_no_slash (s : string) :
  forall cur, has_slash cur = false ->
    Forall (fun p => has_slash p = false) (split_from slash cur s).
Proof.
  induction s as [|c s IH]; intros cur Hcur; simpl.
  - constructor; [exact Hcur|constructor].
  - destruct (Ascii.eqb c slash) eqn:Ec.
    + constructor; [exact Hcur|]. now apply IH.
    + apply IH. rewrite has_slash_app, Hcur. simpl. now rewrite Ec.
Qed.

Lemma appended_path_tokens (parts : list string) :
  Forall (fun p => has_slash p = false) parts ->
  forall i, forallb is_path_token (appended (classes i parts)) = true.
Proof.
  induction 1 as [|p parts Hp _ IH]; intros i; [reflexivity|].
  cbn [classes appended flat_map]. fold (appended (classes (S i) parts)).
  rewrite forallb_app, IH, andb_true_r. unfold classify.
  destruct (String.eqb p "") eqn:E1.
  { destruct (Nat.eqb i 0); reflexivity. }
  destruct (String.eqb p "." && Nat.eqb i 0); [reflexivity|].
  destruct (String.eqb p "..") eqn:E2; [reflexivity|].
  simpl. now rewrite E1, E2, Hp.
Qed.

(** The number of double dots of a navigation is never negative, and the
    commands that the split of a first string contributes are path tokens:
    non-empty strings other than [..], without a [/]; the commands after the
    first are passed through behind them. *)
Theorem navigation_path_tokens (cmds : list Command) (nav : Navigation) :
  computeNavigation cmds = Ok nav ->
  (0 <= numberOfDoubleDots nav)%Z
  /\ forall s rest, cmds = CStr s :: rest -> is_root_marker cmds = false ->
       exists tokens,
         commands nav = tokens ++ map passed_through rest
         /\ forallb is_path_token tokens = true.
Proof.
  intros Hnav.
  rewrite computeNavigation_normalized, new_Navigation_Ok in Hnav.
  destruct Hnav as (-> & _ & _).
  cbn [numberOfDoubleDots commands]. unfold normalized.
  destruct (is_root_marker cmds) eqn:Eroot.
  - split; [simpl; lia|]. intros; discriminate.
  - rewrite reduce_spec_normalized. split.
    + destruct cmds as [|[s| | | |] rest]; simpl; lia.
    + intros s rest -> _. cbn [spec_normalized st_res].
      eexists. split; [reflexivity|].
      apply appended_path_tokens, split_from_no_slash. reflexivity.
Qed.

Lemma navigation_path_tokens_witness :
  (0 <= 2)%Z
  /\ exists tokens,
       [CStr "team"; CStr "44"; CStr "user"; CStr "22"]
       = tokens ++ map passed_through [CStr "22"]
       /\ forallb is_path_token tokens = true.
Proof.
  pose proof (navigation_path_tokens
                [CStr "../../team/44/user"; CStr "22"]
                (mkNavigation false 2
                   [CStr "team"; CStr "44"; CStr "user"; CStr "22"])
                eq_refl) as [Hdd Htok].
  split; [exact Hdd|].
  exact (Htok "../../team/44/user" [CStr "22"] eq_refl eq_refl).
Defined.

(** ** Starting positions *)

Lemma applyDoubleDots_same_tree (up : list Frame) :
  forall (g : UrlSegmentGroup) (ci dd : Z) (pos : Position),
    applyDoubleDots g up ci dd = Ok pos ->
    root_of (segmentGroup pos) = root_of (mkRef g up)
    /\ processChildren pos = false
    /\ (0 <= index pos)%Z.
Proof.
  induction up as [|f up IH]; intros g ci dd pos; simpl;
    destruct (dd >? ci)%Z eqn:E; try discriminate.
  - intros [= <-]. rewrite Z.gtb_ltb in E. apply Z.ltb_ge in E.
    repeat split. simpl. lia.
  - intros H. apply IH in H as (Hroot & Hpc & Hidx).
    repeat split; assumption.
  - intros [= <-]. rewrite Z.gtb_ltb in E. apply Z.ltb_ge in E.
    repeat split. simpl. lia.
Qed.

Lemma applyDoubleDots_within (up : list Frame) :
  forall (g : UrlSegmentGroup) (ci dd : Z) (pos : Position),
    (0 <= dd)%Z -> (ci <= len (segments g))%Z ->
    applyDoubleDots g up ci dd = Ok pos ->
    (index pos <= len (segments (node (segmentGroup pos))))%Z.
Proof.
  induction up as [|f up IH]; intros g ci dd pos Hdd Hci; simpl;
    destruct (dd >? ci)%Z eqn:E; try discriminate.
  - intros [= <-]. simpl. lia.
  - apply Z.gtb_lt in E. apply IH; [lia|simpl; lia].
  - intros [= <-]. simpl. lia.
Qed.

Lemma modifier_bounds (nav : Navigation) : (0 <= modifier nav <= 1)%Z.
Proof.
  unfold modifier. destruct (commands nav) as [|c ?]; [lia|].
  destruct (isMatrixParams c); lia.
Qed.

(** The position at which the commands are applied lies in the tree of the
    anchor, and its index is an index into the segments of its group: between
    0 and their number.  When children are processed the position is the root
    of that tree, at index 0. *)
Theorem starting_position_in_range (nav : Navigation) (target : GroupRef)
    (pos : Position) :
  (0 <= numberOfDoubleDots nav)%Z ->
  findStartingPositionForTargetGroup nav (root_of target) target = Ok pos ->
  root_of (segmentGroup pos) = root_of target
  /\ (0 <= index pos <= len (segments (node (segmentGroup pos))))%Z
  /\ (processChildren pos = true ->
      index pos = 0%Z /\ above (segmentGroup pos) = []).
Proof.
  intros Hdd. unfold findStartingPositionForTargetGroup.
  destruct (isAbsolute nav).
  { intros [= <-]. cbn. pose proof (len_nonneg (segments (walk_up (node target)
                                                     (above target)))).
    repeat split; auto; lia. }
  destruct target as [g up]. unfold parent. cbn [above node].
  destruct up as [|f up].
  { intros [= <-]. cbn. pose proof (len_nonneg (segments g)).
    repeat split; auto; lia. }
  unfold createPositionApplyingDoubleDots. cbn [node above]. intros H.
  pose proof (modifier_bounds nav).
  pose proof (applyDoubleDots_same_tree _ _ _ _ _ H) as (Hroot & Hpc & Hidx).
  assert (Hci : (len (segments g) - 1 + modifier nav <= len (segments g))%Z)
    by lia.
  pose proof (applyDoubleDots_within _ _ _ _ _ Hdd Hci H) as Hle.
  split; [exact Hroot|]. split; [lia|].
  intros Hp. rewrite Hpc in Hp. discriminate.
Qed.

Lemma starting_position_in_range_witness :
  root_of (mkRef (Group [seg "team"; seg "33"]
                        [(PRIMARY_OUTLET, Group [seg "user"; seg "11"] []);
                         ("right", Group [seg "chat"] [])])
                 [mkFrame [] [] PRIMARY_OUTLET []])
  = root_of user_11
  /\ (0 <= 1 <= 2)%Z.
Proof.
  pose proof (starting_position_in_range
                (mkNavigation false 3 [CStr "x"]) user_11
                (mkPosition
                   (mkRef (Group [seg "team"; seg "33"]
                             [(PRIMARY_OUTLET, Group [seg "user"; seg "11"] []);
                              ("right", Group [seg "chat"] [])])
                          [mkFrame [] [] PRIMARY_OUTLET []])
                   false 1)
                ltac:(cbn; lia) eq_refl) as (Hroot & Hidx & _).
  split; [exact Hroot|exact Hidx].
Defined.

(** ** Errors of the entry point *)

Lemma computeNavigation_outcomes (cmds : list Command) :
  (exists nav, computeNavigation cmds = Ok nav)
  \/ computeNavigation cmds = Throw (RuntimeError ROOT_SEGMENT_MATRIX_PARAMS)
  \/ computeNavigation cmds = Throw (RuntimeError MISPLACED_OUTLETS_COMMAND).
Proof.
  rewrite computeNavigation_normalized. unfold new_Navigation.
  destruct (_ && _); [right; left; reflexivity|].
  destruct (find_index _ _); [destruct (negb _)|]; eauto.
Qed.

Lemma apply_at_returns (pos : Position) (nav : Navigation) :
  returns_or_TypeError (apply_at pos nav).
Proof.
  unfold apply_at. destruct (processChildren pos);
    [apply updateSegmentGroupChildren_returns|apply updateSegmentGroup_returns].
Qed.

Lemma bind_Throw_RuntimeError {A B} (r : result A) (k : A -> result B)
    (code : RuntimeErrorCode) :
  returns_or_TypeError r ->
  (forall a, k a <> Throw (RuntimeError code)) ->
  bind r k <> Throw (RuntimeError code).
Proof.
  destruct r as [a|[c|]|]; simpl; intros Hr Hk; [apply Hk|..]; try easy.
Qed.

Lemma findStartingPosition_invalid (nav : Navigation) (target : GroupRef) :
  findStartingPositionForTargetGroup nav (root_of target) target
  = Throw (RuntimeError INVALID_DOUBLE_DOTS)
  <-> isAbsolute nav = false /\ above target <> []
      /\ (numberOfDoubleDots nav > climbable nav target)%Z.
Proof.
  unfold findStartingPositionForTargetGroup, climbable.
  destruct (isAbsolute nav); [split; [discriminate|intros [? _]; discriminate]|].
  destruct target as [g up]. unfold parent. cbn [above node].
  destruct up as [|f up].
  { split; [discriminate|]. intros (_ & H & _). now contradiction H. }
  unfold createPositionApplyingDoubleDots. cbn [node above].
  rewrite applyDoubleDots_raises. split.
  - intros H. repeat split; [discriminate|lia].
  - intros (_ & _ & H). lia.
Qed.

Lemma applyDoubleDots_outcomes (up : list Frame) :
  forall (g : UrlSegmentGroup) (ci dd : Z),
    (exists pos, applyDoubleDots g up ci dd = Ok pos)
    \/ applyDoubleDots g up ci dd = Throw (RuntimeError INVALID_DOUBLE_DOTS).
Proof.
  induction up as [|f up IH]; intros g ci dd; simpl;
    destruct (dd >? ci)%Z; eauto.
Qed.

Lemma findStartingPosition_outcomes (nav : Navigation) (target : GroupRef) :
  (exists pos, findStartingPositionForTargetGroup nav (root_of target) target
               = Ok pos)
  \/ findStartingPositionForTargetGroup nav (root_of target) target
     = Throw (RuntimeError INVALID_DOUBLE_DOTS).
Proof.
  unfold findStartingPositionForTargetGroup.
  destruct (isAbsolute nav); [eauto|].
  destruct (parent target); [|eauto].
  apply applyDoubleDots_outcomes.
Qed.

(** The errors of [createUrlTreeFromSegmentGroup].  The two validation errors
    are raised exactly when [computeNavigation] raises them.
    [INVALID_DOUBLE_DOTS] is raised exactly for a relative navigation from a
    group other than the root whose [..] tokens outnumber the levels above
    the boundary; from the root of the tree it is never raised, however many
    [..] the commands hold.  The call always ends. *)
Theorem createUrlTreeFromSegmentGroup_errors (relativeTo : GroupRef)
    (cmds : list Command) (queryParams : option (Obj QueryValue))
    (fragment : option string) :
  let outcome :=
    createUrlTreeFromSegmentGroup relativeTo cmds queryParams fragment in
  (outcome = Throw (RuntimeError ROOT_SEGMENT_MATRIX_PARAMS)
   <-> computeNavigation cmds = Throw (RuntimeError ROOT_SEGMENT_MATRIX_PARAMS))
  /\ (outcome = Throw (RuntimeError MISPLACED_OUTLETS_COMMAND)
      <-> computeNavigation cmds
          = Throw (RuntimeError MISPLACED_OUTLETS_COMMAND))
  /\ (outcome = Throw (RuntimeError INVALID_DOUBLE_DOTS)
      <-> exists nav,
            computeNavigation cmds = Ok nav /\ isAbsolute nav = false
            /\ above relativeTo <> []
            /\ (numberOfDoubleDots nav > climbable nav relativeTo)%Z)
  /\ outcome <> OutOfFuel.
Proof.
  intros outcome. subst outcome. unfold createUrlTreeFromSegmentGroup.
  destruct cmds as [|c cmds'].
  { repeat split; try discriminate.
    intros (nav & Hnav & _ & _ & Hdd). inversion Hnav; subst nav.
    unfold climbable, modifier in Hdd. cbn in Hdd.
    pose proof (levels_above_nonneg relativeTo).
    pose proof (len_nonneg (segments (node relativeTo))). lia. }
  set (cmds := c :: cmds').
  destruct (computeNavigation_outcomes cmds) as [[nav Hnav]|[Hnav|Hnav]];
    rewrite Hnav; cbn [bind];
    [|repeat split; try discriminate; try reflexivity;
      intros (nav & H & _); discriminate..].
  assert (Htail : forall pos code,
            bind (apply_at pos nav)
                 (fun g => Ok (tree (root_of relativeTo) (segmentGroup pos) g
                                    queryParams fragment))
            <> Throw (RuntimeError code)).
  { intros pos code. apply bind_Throw_RuntimeError;
      [apply apply_at_returns|discriminate]. }
  destruct (toRoot nav) eqn:Eroot.
  { repeat split; try discriminate.
    intros (nav' & [= <-] & Habs & _). unfold toRoot in Eroot.
    rewrite Habs in Eroot. discriminate. }
  destruct (findStartingPosition_outcomes nav relativeTo) as [[pos Hpos]|Hpos].
  - rewrite Hpos. cbn [bind]. repeat split; try discriminate;
      try (intros H; now apply Htail in H).
    + intros (nav' & [= <-] & Hrest).
      apply findStartingPosition_invalid in Hrest. congruence.
    + pose proof (apply_at_returns pos nav) as Hr.
      destruct (apply_at pos nav) as [g| |]; [discriminate..|destruct Hr].
  - rewrite Hpos. cbn [bind]. repeat split; try discriminate.
    intros _. exists nav. split; [reflexivity|].
    now apply findStartingPosition_invalid.
Qed.

(** ** The two entry points *)

(** [createUrlTree], for a route whose segment group is [anchor] in the tree
    [urlTree], returns what [createUrlTreeFromSegmentGroup] returns for
    [anchor] when the last path index of the route is the index of the last
    segment of the group, which has at least one, or, for the root of the
    tree, -1. *)
Theorem entry_points_agree (anchor : GroupRef) (lastPathIndex : Z)
    (urlTree : UrlTree) (cmds : list Command)
    (queryParams : option (Obj QueryValue)) (fragment : option string) :
  root urlTree = node (root_of anchor) ->
  (above anchor = [] /\ lastPathIndex = (-1)%Z)
  \/ (above anchor <> [] /\ segments (node anchor) <> []
      /\ lastPathIndex = (len (segments (node anchor)) - 1)%Z) ->
  createUrlTree (mkActivatedRoute anchor lastPathIndex) urlTree cmds
                queryParams fragment
  = createUrlTreeFromSegmentGroup anchor cmds queryParams fragment.
Proof.
  intros Hroot Hindex.
  unfold createUrlTree, createUrlTreeFromSegmentGroup.
  assert (Href : mkRef (root urlTree) [] = root_of anchor)
    by (rewrite Hroot; reflexivity).
  rewrite Href, Hroot. destruct cmds as [|c cmds']; [reflexivity|].
  destruct (computeNavigation (c :: cmds')) as [nav| |]; cbn [bind];
    [|reflexivity..].
  destruct (toRoot nav); [reflexivity|].
  assert (Hpos : findStartingPosition nav (root_of anchor) anchor lastPathIndex
                 = findStartingPositionForTargetGroup nav (root_of anchor)
                     anchor).
  { unfold findStartingPosition, findStartingPositionForTargetGroup.
    cbn [_urlSegment _lastPathIndex].
    destruct (isAbsolute nav); [reflexivity|].
    destruct anchor as [g up]. unfold parent. cbn [above node] in *.
    destruct Hindex as [[-> ->]|(Hup & Hsegs & ->)].
    - reflexivity.
    - destruct up as [|f up]; [contradiction|].
      assert (Hlen : (1 <= len (segments g))%Z).
      { unfold len. destruct (segments g); [contradiction|simpl; lia]. }
      destruct (len (segments g) - 1 =? -1)%Z eqn:E;
        [apply Z.eqb_eq in E; lia|reflexivity]. }
  cbn [_urlSegment _lastPathIndex]. now rewrite Hpos.
Qed.

Lemma entry_points_agree_witness :
  createUrlTree (mkActivatedRoute user_11 1)
                (mkUrlTree (node (root_of user_11)) [] None)
                [CStr "../22"] None None
  = createUrlTreeFromSegmentGroup user_11 [CStr "../22"] None None.
Proof.
  apply entry_points_agree; [reflexivity|].
  right. repeat split; [discriminate|discriminate].
Defined.

(** ** Navigation to the root *)

(** A navigation for which [toRoot] holds returns the tree of an empty root
    group, whatever the anchor and its tree: ['/'] discards the tree. *)
Theorem root_navigation_returns_empty_tree (relativeTo : GroupRef)
    (cmds : list Command) (nav : Navigation)
    (queryParams : option (Obj QueryValue)) (fragment : option string) :
  computeNavigation cmds = Ok nav -> toRoot nav = true ->
  createUrlTreeFromSegmentGroup relativeTo cmds queryParams fragment
  = Ok (mkUrlTree (Group [] [])
                  match queryParams with
                  | Some q => obj_map stringify_query q
                  | None => []
                  end
                  fragment).
Proof.
  intros Hnav Hroot. unfold createUrlTreeFromSegmentGroup.
  destruct cmds as [|c cmds'].
  { inversion Hnav; subst nav. discriminate. }
  rewrite Hnav. cbn [bind]. rewrite Hroot. reflexivity.
Qed.

Lemma root_navigation_returns_empty_tree_witness :
  createUrlTreeFromSegmentGroup user_11 [CStr "/"] None (Some "top")
  = Ok (mkUrlTree (Group [] []) [] (Some "top")).
Proof.
  exact (root_navigation_returns_empty_tree user_11 [CStr "/"]
           (mkNavigation true 0 [CStr "/"]) None (Some "top")
           eq_refl eq_refl).
Defined.

(** ** Bounds of the prefix match *)

Lemma prefixedWith_loop_bounds (segs : list UrlSegment) (n : nat) :
  forall (rest : list Command) (p k : Z) (m : PrefixMatch),
    List.length rest <= n ->
    prefixedWith_loop segs p k rest = Ok m ->
    (match_ m = false -> m = noMatch)
    /\ (match_ m = true ->
        (p <= pathIndex m <= Z.max p (len segs))%Z
        /\ (pathIndex m - p <= commandIndex m - k <= 2 * (pathIndex m - p))%Z
        /\ (commandIndex m - k <= len rest)%Z).
Proof.
  assert (Hno : (noMatch.(match_) = false -> noMatch = noMatch)
                /\ (noMatch.(match_) = true -> False))
    by (split; [reflexivity|discriminate]).
  assert (Hstop : forall (rest : list Command) p k,
            (match_ (mkMatch true p k) = false -> mkMatch true p k = noMatch)
            /\ (match_ (mkMatch true p k) = true ->
                (p <= pathIndex (mkMatch true p k) <= Z.max p (len segs))%Z
                /\ (pathIndex (mkMatch true p k) - p
                    <= commandIndex (mkMatch true p k) - k
                    <= 2 * (pathIndex (mkMatch true p k) - p))%Z
                /\ (commandIndex (mkMatch true p k) - k <= len rest)%Z)).
  { intros rest p k. split; [discriminate|]. intros _.
    cbn [match_ pathIndex commandIndex].
    pose proof (len_nonneg rest). lia. }
  induction n as [|n IH]; intros rest p k m Hlen Hm.
  - destruct rest; [|simpl in Hlen; lia]. simpl in Hm.
    destruct (p <? len segs)%Z; inversion Hm; subst;
      [split; [reflexivity|discriminate]|apply Hstop].
  - destruct rest as [|command rest']; simpl in Hm.
    { destruct (p <? len segs)%Z; inversion Hm; subst;
        [split; [reflexivity|discriminate]|apply Hstop]. }
    destruct (p <? len segs)%Z eqn:Ep; [|inversion Hm; subst; apply Hstop].
    destruct (isCommandWithOutlets command);
      [inversion Hm; subst; apply Hstop|].
    destruct (nth_Z segs p) as [segment|]; [|discriminate].
    simpl in Hlen. apply Z.ltb_lt in Ep.
    assert (Hone :
      (if compare (template command) [] segment
       then prefixedWith_loop segs (p + 1) (k + 1) rest'
       else Ok noMatch) = Ok m ->
      (match_ m = false -> m = noMatch)
      /\ (match_ m = true ->
          (p <= pathIndex m <= Z.max p (len segs))%Z
          /\ (pathIndex m - p <= commandIndex m - k <= 2 * (pathIndex m - p))%Z
          /\ (commandIndex m - k <= len (command :: rest'))%Z)).
    { intros Hm'. destruct (compare (template command) [] segment).
      - apply IH in Hm' as [Hf Ht]; [|lia]. split; [exact Hf|].
        intros Hmatch. specialize (Ht Hmatch). unfold len in *. cbn [List.length]. lia.
      - inversion Hm'; subst. split; [reflexivity|discriminate]. }
    destruct rest' as [|next rest'']; [now apply Hone|].
    destruct (truthy (template command) && isObjectWithoutOutlets next);
      [|now apply Hone].
    clear Hone.
    destruct (compare (template command) (entries next) segment);
      [|inversion Hm; subst; split; [reflexivity|discriminate]].
    apply IH in Hm as [Hf Ht]; [|simpl in Hlen; lia]. split; [exact Hf|].
    intros Hmatch. specialize (Ht Hmatch). unfold len in *. cbn [List.length]. lia.
Qed.

(** What [prefixedWith] reports.  Without a match it reports path index 0 and
    command index 0.  With a match the path index lies between the start
    index and the end of the segments (or is the start index, when that is
    past the end), every matched segment consumed one or two commands, and
    the command index does not exceed the number of commands. *)
Theorem prefixedWith_bounds (sg : UrlSegmentGroup) (startIndex : Z)
    (cmds : list Command) (m : PrefixMatch) :
  prefixedWith sg startIndex cmds = Ok m ->
  (match_ m = false -> m = noMatch)
  /\ (match_ m = true ->
      (startIndex <= pathIndex m <= Z.max startIndex (len (segments sg)))%Z
      /\ (pathIndex m - startIndex <= commandIndex m
          <= 2 * (pathIndex m - startIndex))%Z
      /\ (commandIndex m <= len cmds)%Z).
Proof.
  intros Hm.
  apply (prefixedWith_loop_bounds _ (List.length cmds)) in Hm as [Hf Ht];
    [|lia].
  split; [exact Hf|]. intros Hmatch. specialize (Ht Hmatch). lia.
Qed.

Lemma prefixedWith_bounds_witness :
  (1 <= 2 <= Z.max 1 2)%Z /\ (2 - 1 <= 2 <= 2 * (2 - 1))%Z /\ (2 <= 3)%Z.
Proof.
  exact (proj2 (prefixedWith_bounds
                  (Group [seg "team"; mkUrlSegment "33" [("a", "b")]] [])
                  1 [CStr "33"; CParams [("a", "b")]; CStr "x"]
                  (mkMatch true 2 2) eq_refl)
               eq_refl).
Defined.

(** ** Navigating to the path of a group *)

Lemma NoDup_obj_get {V} (o : Obj V) (k : string) (v : V) :
  NoDup (obj_keys o) -> In (k, v) o -> obj_get o k = Some v.
Proof.
  induction o as [|[k0 v0] o IH]; simpl; [tauto|].
  intros Hnd. inversion Hnd as [|? ? Hk Hnd']; subst.
  intros [[= -> ->]|Hin]; [now rewrite String.eqb_refl|].
  destruct (String.eqb k0 k) eqn:E; [|now apply IH].
  apply String.eqb_eq in E. subst k0. exfalso. apply Hk.
  apply in_map_iff. now exists (k, v).
Qed.

Lemma shallowEqual_refl (ps : Params) :
  NoDup (obj_keys ps) -> shallowEqual ps ps = true.
Proof.
  intros Hnd. unfold shallowEqual.
  assert (H : forallb (fun kv => string_opt_eqb (obj_get ps (fst kv))
                                   (Some (snd kv))) ps = true).
  { apply forallb_forall. intros [k v] Hin. simpl.
    rewrite (NoDup_obj_get _ _ _ Hnd Hin). simpl. apply String.eqb_refl. }
  now rewrite H.
Qed.

Lemma len_app_one {A} (l : list A) (x : A) : len (l ++ [x]) = (len l + 1)%Z.
Proof. unfold len. rewrite length_app. simpl. lia. Qed.

Lemma nth_Z_middle {A} (pre : list A) (x : A) (post : list A) :
  nth_Z (pre ++ x :: post) (len pre) = Some x.
Proof.
  unfold nth_Z, len. destruct (Z.of_nat _ <? 0)%Z eqn:E;
    [apply Z.ltb_lt in E; lia|].
  rewrite Nat2Z.id, nth_error_app2, Nat.sub_diag by lia. reflexivity.
Qed.

Lemma prefixedWith_loop_own_path (segs' : list UrlSegment) :
  forall (pre : list UrlSegment) (k : Z),
    Forall spellable segs' ->
    prefixedWith_loop (pre ++ segs') (len pre) k (commands_of segs')
    = Ok (mkMatch true (len (pre ++ segs')) (k + len (commands_of segs'))).
Proof.
  induction segs' as [|s segs' IH]; intros pre k Hsp.
  - rewrite app_nil_r. simpl. rewrite Z.ltb_irrefl.
    unfold len at 2. simpl. now rewrite Z.add_0_r.
  - inversion Hsp as [|? ? (Hnd & Hpath & _) Hsp']; subst.
    assert (Hlt : (len pre <? len (pre ++ s :: segs'))%Z = true).
    { apply Z.ltb_lt. unfold len. rewrite length_app. simpl. lia. }
    unfold commands_of. cbn [flat_map]. fold (commands_of segs').
    assert (Hnext : prefixedWith_loop (pre ++ s :: segs') (len pre + 1)
                      (k + len (commands_of_segment s)) (commands_of segs')
                    = Ok (mkMatch true (len (pre ++ s :: segs'))
                            (k + len (commands_of_segment s
                                      ++ commands_of segs')))).
    { replace (pre ++ s :: segs') with ((pre ++ [s]) ++ segs')
        by (now rewrite <- app_assoc).
      rewrite <- (len_app_one pre s), IH by assumption. do 2 f_equal.
      unfold len. rewrite length_app. lia. }
    unfold commands_of_segment in *.
    destruct s as [p ps]. cbn [path parameters] in *.
    destruct ps as [|kv ps].
    + change (k + len [CStr p])%Z with (k + 1)%Z in Hnext.
      cbn [app prefixedWith_loop] in *. rewrite Hlt.
      cbn [isCommandWithOutlets].
      rewrite nth_Z_middle. cbn [template].
      assert (Hc : compare p [] (mkUrlSegment p []) = true)
        by (unfold compare; simpl; now rewrite String.eqb_refl).
      rewrite Hc.
      assert (Hobj : match commands_of segs' with
                     | next :: _ => isObjectWithoutOutlets next
                     | [] => false
                     end = false)
        by (destruct segs'; reflexivity).
      destruct (commands_of segs') as [|next rest''] eqn:Ecs;
        [exact Hnext|].
      rewrite Hobj, andb_false_r. exact Hnext.
    + change (k + len [CStr p; CParams (kv :: ps)])%Z with (k + 2)%Z in Hnext.
      cbn [app prefixedWith_loop] in *. rewrite Hlt.
      cbn [isCommandWithOutlets].
      rewrite nth_Z_middle. cbn [template isObjectWithoutOutlets entries].
      assert (Ht : truthy p = true).
      { destruct Hpath as [?|Hp]; [discriminate|].
        unfold truthy. apply negb_true_iff, String.eqb_neq, Hp. }
      rewrite Ht. cbn [andb].
      assert (Hc : compare p (kv :: ps) (mkUrlSegment p (kv :: ps)) = true).
      { unfold compare. cbn [path parameters].
        now rewrite String.eqb_refl, shallowEqual_refl. }
      rewrite Hc. exact Hnext.
Qed.

Lemma slice_from_all {A} (l : list A) : slice_from l (len l) = [].
Proof.
  unfold slice_from, slice_bound, len.
  destruct (Z.of_nat _ <? 0)%Z eqn:E; [apply Z.ltb_lt in E; lia|].
  rewrite Z.min_id, Nat2Z.id. apply skipn_all.
Qed.

(** Commands that spell out exactly the segments of a group, each path
    followed by its parameters, match all of them, and the update returns the
    group with its segments and without its children.  The segments have no
    parameter named [outlets], as [a;outlets=x] has: its object
    [{outlets: 'x'}] is not compared as parameters, and the match fails. *)
Theorem navigating_to_own_path_drops_children (segs : list UrlSegment)
    (cs : Obj UrlSegmentGroup) :
  Forall spellable segs ->
  prefixedWith (Group segs cs) 0 (commands_of segs)
  = Ok (mkMatch true (len segs) (len (commands_of segs)))
  /\ updateSegmentGroup (Some (Group segs cs)) 0 (commands_of segs)
     = Ok (Group segs []).
Proof.
  intros Hsp.
  assert (Hpre : prefixedWith (Group segs cs) 0 (commands_of segs)
                 = Ok (mkMatch true (len segs) (len (commands_of segs)))).
  { unfold prefixedWith. cbn [segments].
    exact (prefixedWith_loop_own_path segs [] 0%Z Hsp). }
  split; [exact Hpre|].
  rewrite updateSegmentGroup_eq. unfold updateSegmentGroup_body. cbv zeta.
  cbn [segments].
  destruct ((len segs =? 0)%Z && hasChildren (Group segs cs)) eqn:Edel.
  { apply andb_prop in Edel as [Hlen _]. apply Z.eqb_eq in Hlen.
    destruct segs; [|unfold len in Hlen; simpl in Hlen; lia].
    rewrite updateSegmentGroupChildren_eq. reflexivity. }
  rewrite Hpre. cbn [bind match_ pathIndex commandIndex andb].
  rewrite Z.ltb_irrefl, slice_from_all. reflexivity.
Qed.

Lemma navigating_to_own_path_drops_children_witness :
  updateSegmentGroup
    (Some (Group [seg "team"; mkUrlSegment "33" [("expand", "true")]]
                 [(PRIMARY_OUTLET, Group [seg "user"] [])]))
    0 [CStr "team"; CStr "33"; CParams [("expand", "true")]]
  = Ok (Group [seg "team"; mkUrlSegment "33" [("expand", "true")]] []).
Proof.
  refine (proj2 (navigating_to_own_path_drops_children
                   [seg "team"; mkUrlSegment "33" [("expand", "true")]]
                   [(PRIMARY_OUTLET, Group [seg "user"] [])] _)).
  repeat constructor; simpl; intuition discriminate.
Defined.

(** ** New chains *)

Lemma createNewSegmentGroup_loop_paths
    (mk : Outlets -> result (Obj UrlSegmentGroup)) (segs : list UrlSegment)
    (startIndex : Z) (cmds : list Command) :
  forallb is_path_command cmds = true ->
  forall (paths : list UrlSegment) (i : Z),
    createNewSegmentGroup_loop mk segs startIndex paths i cmds
    = Ok (Group (paths ++ map segment_of cmds) []).
Proof.
  induction cmds as [|command cmds IH]; intros Hall paths i.
  - simpl. now rewrite app_nil_r.
  - cbn [forallb] in Hall. apply andb_prop in Hall as [Hc Hall].
    assert (Hnext : match cmds with
                    | next :: _ => isMatrixParams next
                    | [] => false
                    end = false).
    { destruct cmds as [|next ?]; [reflexivity|].
      cbn [forallb] in Hall. apply andb_prop in Hall as [Hn _].
      now destruct next. }
    assert (Hstep : createNewSegmentGroup_loop mk segs startIndex
                      (paths ++ [segment_of command]) (i + 1) cmds
                    = Ok (Group (paths ++ map segment_of (command :: cmds)) []))
      by (rewrite (IH Hall); cbn [map]; now rewrite <- app_assoc).
    destruct command; try discriminate; cbn [createNewSegmentGroup_loop];
      cbn [isMatrixParams]; rewrite andb_false_r;
      (destruct cmds as [|next cmds']; [exact Hstep|]);
      rewrite Hnext, andb_false_r; exact Hstep.
Qed.

(** Commands that are paths and nothing else, strings and other primitives,
    become one new segment each, without parameters, behind the segments of
    the group before the start index; the new group has no children and the
    call does not throw. *)
Theorem createNewSegmentGroup_of_paths (sg : UrlSegmentGroup) (startIndex : Z)
    (cmds : list Command) :
  forallb is_path_command cmds = true ->
  createNewSegmentGroup sg startIndex cmds
  = Ok (Group (slice_to (segments sg) startIndex ++ map segment_of cmds) []).
Proof.
  intros Hall. rewrite createNewSegmentGroup_eq.
  now apply createNewSegmentGroup_loop_paths.
Qed.

Lemma createNewSegmentGroup_of_paths_witness :
  createNewSegmentGroup (Group [seg "team"; seg "33"; seg "user"] []) 2
                        [CStr "details"; CRaw "7"]
  = Ok (Group [seg "team"; seg "33"; seg "details"; seg "7"] []).
Proof.
  exact (createNewSegmentGroup_of_paths
           (Group [seg "team"; seg "33"; seg "user"] []) 2
           [CStr "details"; CRaw "7"] eq_refl).
Defined.

Lemma createNewSegmentGroup_missing_segment (sg : UrlSegmentGroup)
    (startIndex : Z) (ps : Params) (rest : list Command) :
  nth_Z (segments sg) startIndex = None ->
  createNewSegmentGroup sg startIndex (CParams ps :: rest) = Throw TypeError.
Proof.
  intros Hp. rewrite createNewSegmentGroup_eq.
  cbn [createNewSegmentGroup_loop Z.eqb isMatrixParams andb].
  now rewrite Hp.
Qed.

Lemma updateSegmentGroup_absent (startIndex : Z) (cmds : list Command) :
  (0 <= startIndex)%Z ->
  updateSegmentGroup None startIndex cmds
  = createNewSegmentGroup (Group [] []) startIndex cmds.
Proof.
  intros Hi. rewrite updateSegmentGroup_eq. unfold updateSegmentGroup_body.
  cbv zeta. cbn [segments hasChildren children andb].
  rewrite andb_false_r.
  assert (Hpre : prefixedWith (Group [] []) startIndex cmds
                 = Ok (mkMatch true startIndex 0)).
  { unfold prefixedWith. cbn [segments].
    assert (E : (startIndex <? len (@nil UrlSegment))%Z = false)
      by (apply Z.ltb_ge; unfold len; simpl; lia).
    destruct cmds; simpl; now rewrite E. }
  rewrite Hpre. cbn [bind match_ pathIndex commandIndex andb negb].
  assert (E : (startIndex <? len (@nil UrlSegment))%Z = false)
    by (apply Z.ltb_ge; unfold len; simpl; lia).
  rewrite E.
  destruct cmds as [|c cmds']; [|reflexivity].
  rewrite createNewSegmentGroup_eq.
  cbn [slice_from skipn len List.length Z.of_nat Z.eqb andb
       createNewSegmentGroup_loop segments].
  unfold slice_to. now rewrite firstn_nil.
Qed.

(** The update of a group that does not exist, as for an outlet that the tree
    does not have yet, is the construction of a new chain from the commands.
    Path commands become its segments; a matrix-parameter object as first
    command throws a [TypeError], for there is no segment to attach it to. *)
Theorem absent_group_gets_new_chain (startIndex : Z) (cmds : list Command) :
  (0 <= startIndex)%Z ->
  updateSegmentGroup None startIndex cmds
  = createNewSegmentGroup (Group [] []) startIndex cmds
  /\ (forallb is_path_command cmds = true ->
      updateSegmentGroup None startIndex cmds
      = Ok (Group (map segment_of cmds) []))
  /\ (forall ps rest, cmds = CParams ps :: rest ->
      updateSegmentGroup None startIndex cmds = Throw TypeError).
Proof.
  intros Hi. rewrite (updateSegmentGroup_absent _ _ Hi).
  split; [reflexivity|]. split.
  - intros Hall. rewrite createNewSegmentGroup_eq.
    rewrite (createNewSegmentGroup_loop_paths _ _ _ _ Hall).
    unfold slice_to. cbn [segments]. now rewrite firstn_nil.
  - intros ps rest ->. apply createNewSegmentGroup_missing_segment.
    cbn [segments]. unfold nth_Z.
    destruct (startIndex <? 0)%Z; [reflexivity|]. now destruct (Z.to_nat _).
Qed.

Lemma absent_group_gets_new_chain_witness :
  updateSegmentGroup None 0 [CStr "chat"] = Ok (Group [seg "chat"] [])
  /\ updateSegmentGroup None 0 [CParams [("a", "b")]; CStr "chat"]
     = Throw TypeError.
Proof.
  split.
  - exact (proj1 (proj2 (absent_group_gets_new_chain 0 [CStr "chat"]
                           ltac:(lia)))
                 eq_refl).
  - exact (proj2 (proj2 (absent_group_gets_new_chain 0
                           [CParams [("a", "b")]; CStr "chat"] ltac:(lia)))
                 [("a", "b")] [CStr "chat"] eq_refl).
Defined.

(** ** No commands *)

Lemma slice_to_past_end {A} (l : list A) (i : Z) :
  (len l <= i)%Z -> slice_to l i = l.
Proof.
  intros Hi. unfold slice_to, slice_bound, len in *.
  destruct (i <? 0)%Z eqn:E; [apply Z.ltb_lt in E; lia|].
  rewrite Z.min_r, Nat2Z.id by lia. apply firstn_all.
Qed.

Lemma updateSegmentGroup_cut (sg : UrlSegmentGroup) (startIndex : Z) :
  updateSegmentGroup (Some sg) startIndex []
  = Ok (Group (slice_to (segments sg) startIndex) []).
Proof.
  rewrite updateSegmentGroup_eq. unfold updateSegmentGroup_body. cbv zeta.
  destruct ((len (segments sg) =? 0)%Z && hasChildren sg) eqn:Edel.
  { apply andb_prop in Edel as [Hlen _]. apply Z.eqb_eq in Hlen.
    rewrite updateSegmentGroupChildren_eq. cbn.
    destruct (segments sg); [|unfold len in Hlen; simpl in Hlen; lia].
    unfold slice_to. now rewrite firstn_nil. }
  unfold prefixedWith. cbn [prefixedWith_loop].
  destruct (startIndex <? len (segments sg))%Z eqn:E; cbn [bind].
  - cbn [match_ noMatch andb]. rewrite createNewSegmentGroup_eq. reflexivity.
  - cbn [match_ pathIndex commandIndex andb]. rewrite E.
    apply Z.ltb_ge in E. now rewrite slice_to_past_end.
Qed.

(** With no commands left, as after commands that are [..] tokens only,
    [updateSegmentGroup] cuts the group at the start index: it returns the
    segments before that index, all of them when the index is past the end,
    and no children, also when the group has no segments and
    [updateSegmentGroupChildren] does the work; for an absent group it
    returns the empty group. *)
Theorem updateSegmentGroup_no_commands (sg : UrlSegmentGroup)
    (startIndex : Z) :
  updateSegmentGroup (Some sg) startIndex []
  = Ok (Group (slice_to (segments sg) startIndex) [])
  /\ ((len (segments sg) <= startIndex)%Z ->
      updateSegmentGroup (Some sg) startIndex [] = Ok (Group (segments sg) []))
  /\ updateSegmentGroup None startIndex [] = Ok (Group [] []).
Proof.
  split; [apply updateSegmentGroup_cut|]. split.
  - intros Hpast. rewrite updateSegmentGroup_cut.
    now rewrite slice_to_past_end.
  - rewrite updateSegmentGroup_eq. unfold updateSegmentGroup_body. cbv zeta.
    cbn -[createNewSegmentGroup].
    destruct (startIndex <? 0)%Z eqn:E;
      cbn -[createNewSegmentGroup]; rewrite ?E; cbn -[createNewSegmentGroup];
      rewrite ?createNewSegmentGroup_eq; cbn; unfold slice_to;
      rewrite ?firstn_nil; reflexivity.
Qed.

Lemma removelast_slice {A} (init : list A) (last : A) :
  slice_to (init ++ [last]) (len (init ++ [last]) - 1) = init.
Proof. rewrite len_app_one, Z.add_simpl_r. apply slice_to_init. Qed.

(** The command ['..'] from a group that is not the root and has at least one
    segment returns the tree in which that group has lost its last segment
    and its children. *)
Theorem one_double_dot_drops_last_segment (anchor : GroupRef)
    (init : list UrlSegment) (last : UrlSegment)
    (queryParams : option (Obj QueryValue)) (fragment : option string) :
  above anchor <> [] ->
  segments (node anchor) = init ++ [last] ->
  createUrlTreeFromSegmentGroup anchor [CStr ".."] queryParams fragment
  = Ok (tree (root_of anchor) anchor (Group init []) queryParams fragment).
Proof.
  intros Habove Hsegs. destruct anchor as [sg up]. simpl in *.
  destruct up as [|f up]; [contradiction|].
  unfold createUrlTreeFromSegmentGroup.
  change (computeNavigation [CStr ".."]) with (Ok (mkNavigation false 1 [])).
  cbn [bind toRoot isAbsolute andb].
  unfold findStartingPositionForTargetGroup, parent, modifier.
  cbn [isAbsolute above commands numberOfDoubleDots node].
  unfold createPositionApplyingDoubleDots. cbn [node above].
  replace (len (segments sg) - 1 + 1)%Z with (len (segments sg)) by lia.
  assert (Hlen : (1 <= len (segments sg))%Z).
  { rewrite Hsegs, len_app_one. pose proof (len_nonneg init). lia. }
  assert (Hdd : applyDoubleDots sg (f :: up) (len (segments sg)) 1
                = Ok (mkPosition (mkRef sg (f :: up)) false
                                 (len (segments sg) - 1))).
  { simpl. destruct (1 >? len (segments sg))%Z eqn:E;
      [apply Z.gtb_lt in E; lia|reflexivity]. }
  rewrite Hdd. cbn [bind]. unfold apply_at.
  cbn [processChildren segmentGroup index node commands].
  rewrite updateSegmentGroup_cut. cbn [bind].
  now rewrite Hsegs, removelast_slice.
Qed.

Lemma one_double_dot_drops_last_segment_witness :
  createUrlTreeFromSegmentGroup user_11 [CStr ".."] None None
  = Ok (mkUrlTree
          (Group [] [(PRIMARY_OUTLET,
                      Group [seg "team"; seg "33"]
                            [(PRIMARY_OUTLET, Group [seg "user"] []);
                             ("right", Group [seg "chat"] [])])])
          [] None).
Proof.
  exact (one_double_dot_drops_last_segment user_11 [seg "user"] (seg "11")
           None None ltac:(discriminate) eq_refl).
Defined.

(** ** Replacing a group in its tree *)

Lemma replaceSegment_absent (current newSegment : UrlSegmentGroup) :
  replaceSegment current None newSegment = current.
Proof.
  induction current as [segs cs IH] using UrlSegmentGroup_nested_ind.
  cbn [replaceSegment is_child below]. f_equal.
  rewrite <- (map_id cs) at 2. apply map_ext_in. intros [o c] Hin.
  cbn [fst snd]. f_equal. rewrite Forall_forall in IH. apply (IH (o, c) Hin).
Qed.

Lemma walk_up_app (g : UrlSegmentGroup) (a b : list Frame) :
  walk_up g (a ++ b) = walk_up (walk_up g a) b.
Proof. revert g. induction a as [|f a IH]; intros g; simpl; auto. Qed.

Lemma replaceSegment_siblings (cs : Obj UrlSegmentGroup) (o : string)
    (p : list string) (newSegment : UrlSegmentGroup) :
  ~ In o (obj_keys cs) ->
  map (fun kv =>
         (fst kv,
          if is_child (Some (o :: p)) (fst kv) then newSegment
          else replaceSegment (snd kv) (below (Some (o :: p)) (fst kv))
                              newSegment)) cs
  = cs.
Proof.
  intros Hfresh. rewrite <- (map_id cs) at 2. apply map_ext_in.
  intros [k c] Hin. cbn [fst snd].
  assert (Hk : String.eqb o k = false).
  { apply String.eqb_neq. intros ->. apply Hfresh.
    apply in_map_iff. now exists (k, c). }
  unfold is_child, below. rewrite Hk.
  destruct p; now rewrite replaceSegment_absent.
Qed.

Lemma replaceSegment_walk_up (up : list Frame) :
  up <> [] -> Forall fresh_outlet up ->
  forall g newSegment,
    replaceSegment (walk_up g up) (Some (rev (map fr_outlet up))) newSegment
    = walk_up newSegment up.
Proof.
  induction up as [|f up IH] using rev_ind; [contradiction|].
  intros _ Hfresh g newSegment.
  apply Forall_app in Hfresh as [Hup Hf].
  inversion Hf as [|? ? [Hbefore Hafter] _]; subst.
  rewrite !walk_up_app, map_app, rev_app_distr. cbn [map rev app walk_up].
  unfold plug. cbn [replaceSegment]. f_equal.
  rewrite map_app. cbn [map fst snd].
  rewrite (replaceSegment_siblings _ _ _ _ Hbefore),
          (replaceSegment_siblings _ _ _ _ Hafter).
  do 2 f_equal. unfold is_child, below. rewrite String.eqb_refl.
  destruct (rev (map fr_outlet up)) as [|o' p'] eqn:Epath.
  - assert (up = []) as ->.
    { destruct up as [|f' up']; [reflexivity|].
      apply (f_equal (@List.length string)) in Epath.
      rewrite length_rev, length_map in Epath. discriminate. }
    reflexivity.
  - f_equal. apply IH; [|exact Hup].
    intros ->. discriminate.
Qed.

(** [replaceSegment] rebuilds the tree with the new group in the place of the
    old one and nothing else changed: the result is the tree obtained by
    walking up from the new group through the ancestors of the old one, with
    their other children as they were.  When the old group is not in the
    tree, the tree comes back as it was. *)
Theorem replaceSegment_replaces_exactly (old : GroupRef)
    (current newSegment : UrlSegmentGroup) :
  replaceSegment current None newSegment = current
  /\ (above old <> [] -> Forall fresh_outlet (above old) ->
      replaceSegment (node (root_of old)) (Some (outlet_path old)) newSegment
      = node (root_of (mkRef newSegment (above old)))).
Proof.
  split; [apply replaceSegment_absent|].
  intros Hne Hfresh. cbn [root_of node above]. unfold outlet_path.
  now apply replaceSegment_walk_up.
Qed.

Lemma replaceSegment_replaces_exactly_witness :
  replaceSegment (node (root_of user_11)) (Some (outlet_path user_11))
                 (Group [seg "user"; seg "22"] [])
  = Group []
      [(PRIMARY_OUTLET,
        Group [seg "team"; seg "33"]
              [(PRIMARY_OUTLET, Group [seg "user"; seg "22"] []);
               ("right", Group [seg "chat"] [])])].
Proof.
  refine (proj2 (replaceSegment_replaces_exactly user_11 (Group [] [])
                   (Group [seg "user"; seg "22"] [])) _ _).
  - discriminate.
  - repeat constructor; simpl; intuition discriminate.
Defined.

(** ** Route snapshots *)


























(** ** Query parameters and fragment *)

(** The query parameters and the fragment do not steer the navigation: a call
    raises what the call without them raises, and returns the tree of that
    call with the given query parameters, each value as [tree] renders it,
    and the given fragment.  Nothing of them is taken from the old tree. *)
Theorem query_and_fragment_are_attached (relativeTo : GroupRef)
    (cmds : list Command) (q : option (Obj QueryValue))
    (f : option string) :
  createUrlTreeFromSegmentGroup relativeTo cmds q f
  = t <- createUrlTreeFromSegmentGroup relativeTo cmds None None ;;
    Ok (mkUrlTree (root t)
                  (match q with
                   | Some q' => obj_map stringify_query q'
                   | None => []
                   end) f).
Proof.
  unfold createUrlTreeFromSegmentGroup.
  destruct cmds as [|c cmds']; [reflexivity|].
  destruct (computeNavigation (c :: cmds')) as [nav| |]; [|reflexivity..].
  cbn [bind]. destruct (toRoot nav); [reflexivity|].
  destruct (findStartingPositionForTargetGroup nav (root_of relativeTo)
                                               relativeTo) as [pos| |];
    [|reflexivity..].
  cbn [bind]. destruct (apply_at pos nav); reflexivity.
Qed.
